(** * queue_multithread.py: the multi-threaded record generator and its CSV sink

    A shallow embedding of [DataGenerator] and [CSVWriter] of
    [src/queue_multithread.py].

    - Python integers are [Z]; [//] is floor division and raises on a zero
      divisor; [range(n)] runs [Z.to_nat n] times (never for [n <= 0]).
    - The module-level [random] object is one state shared by every thread.
      It is an interface ([RandomSource]): [random.randint] and
      [random.choice] take the state and give a value, or raise, and the next
      state. One call is one atomic action: the runs of the model are the
      executions in which no thread switch falls inside a call.
    - [generate_data] is a small-step machine. The main thread creates the
      queue, starts the workers, joins them and drains the queue; each worker
      runs [_generate_worker]. A schedule (a list of thread ids) picks which
      thread performs its next atomic action, so every interleaving of the
      threads is an execution of the model. A thread switch can fall between
      any two calls of a worker's loop body, also inside the dict display
      that builds one record.
    - An exception that escapes a thread's target ends that thread only
      ([threading] prints it): the thread counts as finished for [join].
    - [queue.Queue] is unbounded and FIFO; [put], [empty] and [get] are
      atomic (the queue's own lock).
    - [csv.DictWriter] is modelled at the level of rows of cells. *)

From Stdlib Require Import ZArith Lia.
From stdpp Require Import base tactics option list strings gmap pretty.

Local Open Scope Z_scope.

(** ** Data *)

(** The dict built at lines 71-76: four fixed keys. *)
Record Record_ := mkRecord {
  name : string;
  age : Z;
  city : string;
  salary : Z
}.

(** [DataGenerator.__init__]: the two attributes of [self]. *)
Record DataGenerator := mkDataGenerator {
  num_threads : Z;
  num_records : Z
}.

(** The literals of [_generate_name] and [_generate_city]. *)
Definition names : list string :=
  ["Alice"; "Bob"; "Charlie"; "David"; "Eve"]%string.

Definition cities : list string :=
  ["New York"; "Los Angeles"; "Chicago"; "Houston"; "Miami"]%string.

(** ** Python arithmetic *)

(** [a // b]: [None] stands for [ZeroDivisionError]. *)
Definition floordiv (a b : Z) : option Z :=
  if decide (b = 0) then None else Some (a `div` b).

(** Number of iterations of [for _ in range(n)]. *)
Definition range_len (n : Z) : nat := Z.to_nat n.

(** ** The random module *)

(** [random.randint(a, b)] and [random.choice(seq)] on the shared generator
    state; the first component is [None] when the call raises. *)
Class RandomSource (G : Type) := {
  randint : Z → Z → G → option Z * G;
  choice : list string → G → option string * G
}.

(** The calls the generator makes never raise. *)
Class RandomTotal (G : Type) `{RandomSource G} : Prop := {
  randint_total a b g : a ≤ b → is_Some (randint a b g).1;
  choice_total l g : l ≠ [] → is_Some (choice l g).1
}.

(** What a call returns lies in the requested range or sequence. *)
Class RandomSound (G : Type) `{RandomSource G} : Prop := {
  randint_sound a b g z : (randint a b g).1 = Some z → a ≤ z ≤ b;
  choice_sound l g x : (choice l g).1 = Some x → x ∈ l
}.

(** ** Threads *)

(** Control state of one worker thread running [_generate_worker]. In the
    states after [WLoop] the number [k] counts the iterations that remain
    after the current one. *)
Inductive wstate :=
  | WStart
      (* started; [range(self.num_records // self.num_threads)] not yet evaluated *)
  | WLoop (k : nat)
      (* at the head of the loop, [k] iterations to go *)
  | WAge (k : nat) (nm : string)
      (* [_generate_name()] returned; next [random.randint(20, 50)] *)
  | WCity (k : nat) (nm : string) (a : Z)
      (* next [_generate_city()] *)
  | WSalary (k : nat) (nm : string) (a : Z) (c : string)
      (* next [random.randint(30000, 100000)] *)
  | WPut (k : nat) (r : Record_)
      (* the dict is built; next [data_queue.put(data)] *)
  | WDone
      (* the target returned *)
  | WCrashed
      (* an exception escaped the target *).

(** Control state of the thread that called [generate_data]. *)
Inductive mstate :=
  | MSpawn (k : nat)
      (* first loop, [k] threads still to create and start *)
  | MJoin (i : nat)
      (* second loop, about to [join] thread number [i] *)
  | MDrain (data : list Record_)
      (* [while not data_queue.empty()] *)
  | MReturn (data : list Record_)
      (* [return data] *).

Inductive tid := Main | Worker (i : nat).

Definition finished (w : wstate) : bool :=
  match w with WDone | WCrashed => true | _ => false end.

Section Machine.
Context {G : Type} `{RandomSource G}.

(** [self] and the random module outlive a call; the program counter, the
    thread list and the queue are local to one call. *)
Record state := mkState {
  self : DataGenerator;
  rng : G;
  pc : mstate;
  threads : list wstate;
  data_queue : list Record_
}.

(** Entry of [generate_data]: a fresh queue, no thread yet, and
    [range(self.num_threads)] about to be iterated. *)
Definition generate_data (d : DataGenerator) (g : G) : state :=
  {| self := d; rng := g;
     pc := MSpawn (range_len (num_threads d));
     threads := []; data_queue := [] |}.

Definition set_worker (i : nat) (w : wstate) (s : state) : state :=
  {| self := self s; rng := rng s; pc := pc s;
     threads := <[i := w]> (threads s); data_queue := data_queue s |}.

Definition set_worker_rng (i : nat) (w : wstate) (g : G) (s : state) : state :=
  {| self := self s; rng := g; pc := pc s;
     threads := <[i := w]> (threads s); data_queue := data_queue s |}.

(** [_generate_name] and [_generate_city]: one call of [random.choice]. *)
Definition _generate_name (g : G) : option string * G := choice names g.

Definition _generate_city (g : G) : option string * G := choice cities g.

(** One atomic action of worker [i] in [_generate_worker]. *)
Definition _generate_worker (i : nat) (s : state) : option state :=
  match threads s !! i with
  | None => None
  | Some WStart =>
      match floordiv (num_records (self s)) (num_threads (self s)) with
      | Some q => Some (set_worker i (WLoop (range_len q)) s)
      | None => Some (set_worker i WCrashed s)
      end
  | Some (WLoop 0) => Some (set_worker i WDone s)
  | Some (WLoop (S k)) =>
      match _generate_name (rng s) with
      | (Some nm, g) => Some (set_worker_rng i (WAge k nm) g s)
      | (None, g) => Some (set_worker_rng i WCrashed g s)
      end
  | Some (WAge k nm) =>
      match randint 20 50 (rng s) with
      | (Some a, g) => Some (set_worker_rng i (WCity k nm a) g s)
      | (None, g) => Some (set_worker_rng i WCrashed g s)
      end
  | Some (WCity k nm a) =>
      match _generate_city (rng s) with
      | (Some c, g) => Some (set_worker_rng i (WSalary k nm a c) g s)
      | (None, g) => Some (set_worker_rng i WCrashed g s)
      end
  | Some (WSalary k nm a c) =>
      match randint 30000 100000 (rng s) with
      | (Some sal, g) =>
          Some (set_worker_rng i (WPut k (mkRecord nm a c sal)) g s)
      | (None, g) => Some (set_worker_rng i WCrashed g s)
      end
  | Some (WPut k r) =>
      Some {| self := self s; rng := rng s; pc := pc s;
              threads := <[i := WLoop k]> (threads s);
              data_queue := data_queue s ++ [r] |}
  | Some WDone | Some WCrashed => None
  end.

(** One atomic action of the main thread in [generate_data]. [join] on a
    running thread blocks: no action. *)
Definition generate_data_step (s : state) : option state :=
  match pc s with
  | MSpawn (S k) =>
      Some {| self := self s; rng := rng s; pc := MSpawn k;
              threads := threads s ++ [WStart];
              data_queue := data_queue s |}
  | MSpawn 0 =>
      Some {| self := self s; rng := rng s; pc := MJoin 0;
              threads := threads s; data_queue := data_queue s |}
  | MJoin i =>
      match threads s !! i with
      | None =>
          Some {| self := self s; rng := rng s; pc := MDrain [];
                  threads := threads s; data_queue := data_queue s |}
      | Some w =>
          if finished w then
            Some {| self := self s; rng := rng s; pc := MJoin (S i);
                    threads := threads s; data_queue := data_queue s |}
          else None
      end
  | MDrain data =>
      match data_queue s with
      | [] =>
          Some {| self := self s; rng := rng s; pc := MReturn data;
                  threads := threads s; data_queue := [] |}
      | r :: rest =>
          Some {| self := self s; rng := rng s; pc := MDrain (data ++ [r]);
                  threads := threads s; data_queue := rest |}
      end
  | MReturn _ => None
  end.

Definition sched_step (t : tid) (s : state) : option state :=
  match t with
  | Main => generate_data_step s
  | Worker i => _generate_worker i s
  end.

(** Run a schedule; [None] when it asks a thread to move that cannot. *)
Fixpoint run (sched : list tid) (s : state) : option state :=
  match sched with
  | [] => Some s
  | t :: rest =>
      match sched_step t s with
      | Some s' => run rest s'
      | None => None
      end
  end.

(** [generate_data] started in [s] can return [data]. *)
Definition returns (s : state) (data : list Record_) : Prop :=
  ∃ sched s', run sched s = Some s' ∧ pc s' = MReturn data.

End Machine.

Arguments state : clear implicits.

(** ** Concrete random sources *)

(** A deterministic source: the state counts the calls made so far, and the
    [n]-th call returns the [n]-th value of its range, wrapping around. *)
Record counter := Counter { ticks : nat }.

Definition counter_randint (a b : Z) (g : counter) : option Z * counter :=
  (if decide (a ≤ b) then Some (a + Z.of_nat (ticks g) `mod` (b - a + 1))
   else None,
   Counter (S (ticks g))).

Definition counter_choice (l : list string) (g : counter)
    : option string * counter :=
  (l !! (ticks g `mod` length l)%nat, Counter (S (ticks g))).

#[export] Instance counter_source : RandomSource counter :=
  {| randint := counter_randint; choice := counter_choice |}.

(** A source that raises from some call on: [budget] calls succeed (as the
    counter's do), every later call raises. *)
Record flaky := Flaky { budget : nat; made : counter }.

Definition flaky_randint (a b : Z) (g : flaky) : option Z * flaky :=
  match budget g with
  | O => (None, g)
  | S n => let (v, c) := counter_randint a b (made g) in (v, Flaky n c)
  end.

Definition flaky_choice (l : list string) (g : flaky) : option string * flaky :=
  match budget g with
  | O => (None, g)
  | S n => let (v, c) := counter_choice l (made g) in (v, Flaky n c)
  end.

#[export] Instance flaky_source : RandomSource flaky :=
  {| randint := flaky_randint; choice := flaky_choice |}.

(** A source with one bad call: call number [fuse] raises, the calls before
    and after it succeed as the counter's do. *)
Record hiccup := Hiccup { fuse : nat; steady : counter }.

Definition hiccup_randint (a b : Z) (g : hiccup) : option Z * hiccup :=
  match fuse g with
  | S O => (None, Hiccup O (steady g))
  | n => let (v, c) := counter_randint a b (steady g) in (v, Hiccup (pred n) c)
  end.

Definition hiccup_choice (l : list string) (g : hiccup)
    : option string * hiccup :=
  match fuse g with
  | S O => (None, Hiccup O (steady g))
  | n => let (v, c) := counter_choice l (steady g) in (v, Hiccup (pred n) c)
  end.

#[export] Instance hiccup_source : RandomSource hiccup :=
  {| randint := hiccup_randint; choice := hiccup_choice |}.

Local Close Scope Z_scope.

(** ** The CSV sink *)

(** The values a row dict holds. *)
Inductive pyval := PyStr (s : string) | PyInt (z : Z).

(** [str(v)], the text [csv] writes for a cell. *)
Definition py_str (v : pyval) : string :=
  match v with
  | PyStr s => s
  | PyInt z => pretty z
  end.

(** The dict display of lines 71-76, as [CSVWriter] receives it. *)
Definition record_dict (r : Record_) : gmap string pyval :=
  <["salary" := PyInt (salary r)]>
    (<["city" := PyStr (city r)]>
       (<["age" := PyInt (age r)]>
          (<["name" := PyStr (name r)]> ∅))).

Module CSVWriter.

Definition fieldnames : list string := ["name"; "age"; "city"; "salary"].

(** [DictWriter._dict_to_list] with the defaults: an empty [restval] and
    [extrasaction] set to raise: a key outside [fieldnames] raises
    [ValueError] ([None]); otherwise one cell per field name, in the order
    of [fieldnames]. *)
Definition dict_to_list (fields : list string) (rowdict : gmap string pyval)
    : option (list string) :=
  if decide (dom rowdict ⊆ list_to_set fields)
  then Some ((λ key, from_option py_str EmptyString (rowdict !! key))
               <$> fields)
  else None.

(** The loop [for row in self.data: writer.writerow(row)]: the rows
    written, and whether the loop ran to its end. *)
Fixpoint write_rows (fields : list string) (data : list (gmap string pyval))
    : list (list string) * bool :=
  match data with
  | [] => ([], true)
  | row :: rest =>
      match dict_to_list fields row with
      | Some cells =>
          let (rows, ok) := write_rows fields rest in (cells :: rows, ok)
      | None => ([], false)
      end
  end.

(** [write_to_csv]: [writeheader()] writes the field names as a row, then
    the loop. The result lists the rows of the file. *)
Definition write_to_csv (data : list (gmap string pyval))
    : list (list string) * bool :=
  let (rows, ok) := write_rows fieldnames data in (fieldnames :: rows, ok).

(** The cells of one record in column order. *)
Definition cells (r : Record_) : list string :=
  [name r; pretty (age r); city r; pretty (salary r)].

End CSVWriter.

(** ** Measures, invariants and logs used in the proofs *)

Section Vocabulary.
Context {G : Type} `{RandomSource G}.
Implicit Types (s : state G) (d : DataGenerator) (g : G).

(** *** A bound on the actions still to come *)

(** Iterations of a worker's loop. *)
Definition loop_len d : nat :=
  match floordiv (num_records d) (num_threads d) with
  | Some q => range_len q
  | None => 0
  end.

Definition wmeasure (q : nat) (w : wstate) : nat :=
  match w with
  | WStart => 6 * q + 2
  | WLoop k => 6 * k + 1
  | WAge k _ => 6 * k + 6
  | WCity k _ _ => 6 * k + 5
  | WSalary k _ _ _ => 6 * k + 4
  | WPut k _ => 6 * k + 3
  | WDone | WCrashed => 0
  end.

Definition mmeasure (q n : nat) (m : mstate) : nat :=
  match m with
  | MSpawn k => 3 + n + k * (6 * q + 4)
  | MJoin i => 2 + (n - i)
  | MDrain _ => 1
  | MReturn _ => 0
  end.

(** An upper bound on the number of actions still to come. *)
Definition measure s : nat :=
  mmeasure (loop_len (self s)) (length (threads s)) (pc s)
  + sum_list_with (wmeasure (loop_len (self s))) (threads s)
  + length (data_queue s).

(** *** What the main thread knows: thread count, joined threads *)

Definition spawn_left (m : mstate) : nat :=
  match m with MSpawn k => k | _ => 0 end.

Definition drained (m : mstate) : list Record_ :=
  match m with MDrain data | MReturn data => data | _ => [] end.

Definition joined (m : mstate) (ws : list wstate) : Prop :=
  match m with
  | MSpawn _ => True
  | MJoin i => Forall (λ w, finished w = true) (take i ws)
  | MDrain _ | MReturn _ => Forall (λ w, finished w = true) ws
  end.

Record main_inv s : Prop := {
  mi_threads :
    length (threads s) + spawn_left (pc s)
    = range_len (num_threads (self s));
  mi_joined : joined (pc s) (threads s);
  mi_queue : ∀ data, pc s = MReturn data → data_queue s = []
}.

(** *** The log of [put] calls *)

(** What the step of [t] in [s] puts on the queue, with the worker's
    number. *)
Definition put_event (t : tid) s : list (nat * Record_) :=
  match t with
  | Main => []
  | Worker i =>
      match threads s !! i with
      | Some (WPut _ r) => [(i, r)]
      | _ => []
      end
  end.

(** The [put] calls of a schedule, in the order they happen. *)
Fixpoint puts (sched : list tid) s : list (nat * Record_) :=
  match sched with
  | [] => []
  | t :: rest =>
      match sched_step t s with
      | Some s' => put_event t s ++ puts rest s'
      | None => []
      end
  end.

(** The records put by worker [i]. *)
Definition puts_by (i : nat) (log : list (nat * Record_)) : list Record_ :=
  (filter (λ e, e.1 = i) log).*2.

(** *** Counting records *)

(** Records a worker has still to put; [q] is the loop length. *)
Definition rem (q : nat) (w : wstate) : nat :=
  match w with
  | WStart => q
  | WLoop k => k
  | WAge k _ | WCity k _ _ | WSalary k _ _ _ | WPut k _ => S k
  | WDone | WCrashed => 0
  end.

(** Records returned, queued, or still to be put. *)
Definition pending s : nat :=
  length (drained (pc s)) + length (data_queue s)
  + sum_list_with (rem (loop_len (self s))) (threads s)
  + spawn_left (pc s) * loop_len (self s).

Definition share_inv (log : list (nat * Record_)) s : Prop :=
  (∀ i w, threads s !! i = Some w →
     length (puts_by i log) + rem (loop_len (self s)) w
     = loop_len (self s))
  ∧ Forall (λ e, e.1 < length (threads s)) log.

(** *** Field ranges *)

Definition valid_record (r : Record_) : Prop :=
  name r ∈ names ∧ (20 ≤ age r ≤ 50)%Z
  ∧ city r ∈ cities ∧ (30000 ≤ salary r ≤ 100000)%Z.

(** The fields a worker holds while it builds a record. *)
Definition valid_wstate (w : wstate) : Prop :=
  match w with
  | WAge _ nm => nm ∈ names
  | WCity _ nm a => nm ∈ names ∧ (20 ≤ a ≤ 50)%Z
  | WSalary _ nm a c => nm ∈ names ∧ (20 ≤ a ≤ 50)%Z ∧ c ∈ cities
  | WPut _ r => valid_record r
  | _ => True
  end.

Record valid_inv s : Prop := {
  vi_threads : Forall valid_wstate (threads s);
  vi_queue : Forall valid_record (data_queue s);
  vi_drained : Forall valid_record (drained (pc s))
}.

(** *** The log of calls to the random module *)

Inductive draw := DRandint (a b : Z) | DChoice (l : list string).

(** The call to the random module made by the step of [t] in [s]. *)
Definition draw_event (t : tid) s : list (nat * draw) :=
  match t with
  | Main => []
  | Worker i =>
      match threads s !! i with
      | Some (WLoop (S _)) => [(i, DChoice names)]
      | Some (WAge _ _) => [(i, DRandint 20 50)]
      | Some (WCity _ _ _) => [(i, DChoice cities)]
      | Some (WSalary _ _ _ _) => [(i, DRandint 30000 100000)]
      | _ => []
      end
  end.

(** The calls to the random module along a schedule, in order. *)
Fixpoint draws (sched : list tid) s : list (nat * draw) :=
  match sched with
  | [] => []
  | t :: rest =>
      match sched_step t s with
      | Some s' => draw_event t s ++ draws rest s'
      | None => []
      end
  end.

(** *** One worker alone *)

(** The loop body without any other thread in between: the four calls in
    the order of the dict display. *)
Definition build_record (g : G) : option Record_ * G :=
  match _generate_name g with
  | (Some nm, g1) =>
      match randint 20 50 g1 with
      | (Some a, g2) =>
          match _generate_city g2 with
          | (Some c, g3) =>
              match randint 30000 100000 g3 with
              | (Some sal, g4) => (Some (mkRecord nm a c sal), g4)
              | (None, g4) => (None, g4)
              end
          | (None, g3) => (None, g3)
          end
      | (None, g2) => (None, g2)
      end
  | (None, g1) => (None, g1)
  end.

(** The records of [k] iterations run alone; the loop ends at the first
    call that raises. *)
Fixpoint loop_alone (k : nat) (g : G) : list Record_ :=
  match k with
  | 0 => []
  | S k =>
      match build_record g with
      | (Some r, g') => r :: loop_alone k g'
      | (None, _) => []
      end
  end.

(** The records a worker in state [w] still puts when it runs alone. *)
Definition rest_alone (q : nat) (w : wstate) (g : G) : list Record_ :=
  match w with
  | WStart => loop_alone q g
  | WLoop k => loop_alone k g
  | WAge k nm =>
      match randint 20 50 g with
      | (Some a, g2) =>
          match _generate_city g2 with
          | (Some c, g3) =>
              match randint 30000 100000 g3 with
              | (Some sal, g4) => mkRecord nm a c sal :: loop_alone k g4
              | (None, _) => []
              end
          | (None, _) => []
          end
      | (None, _) => []
      end
  | WCity k nm a =>
      match _generate_city g with
      | (Some c, g3) =>
          match randint 30000 100000 g3 with
          | (Some sal, g4) => mkRecord nm a c sal :: loop_alone k g4
          | (None, _) => []
          end
      | (None, _) => []
      end
  | WSalary k nm a c =>
      match randint 30000 100000 g with
      | (Some sal, g4) => mkRecord nm a c sal :: loop_alone k g4
      | (None, _) => []
      end
  | WPut k r => r :: loop_alone k g
  | WDone | WCrashed => []
  end.

(** Returned, queued and still to come, with the first thread alone. *)
Definition total_alone s : list Record_ :=
  drained (pc s) ++ data_queue s
  ++ match threads s with
     | [] => loop_alone (loop_len (self s)) (rng s)
     | w :: _ => rest_alone (loop_len (self s)) w (rng s)
     end.

(** *** Calls that produce nothing *)

(** No record is anywhere and no call to the random module was made. *)
Record quiet_inv (g0 : G) s : Prop := {
  qi_threads :
    Forall (λ w, w = WStart ∨ w = WLoop 0 ∨ w = WDone) (threads s);
  qi_queue : data_queue s = [];
  qi_drained : drained (pc s) = [];
  qi_rng : rng s = g0
}.

(** *** The statements of the specification that fail on the code *)

(** The call ends by an exception instead of a [return]: it hands no list
    to its caller. Every schedule is finite and no state before [return]
    is stuck ([run_bounded], [progress]), so this is the only way not to
    return. *)
Definition call_raises d g : Prop :=
  ∀ data, ¬ returns (generate_data d g) data.


(** Two calls from the same source state return the same multiset. *)
Definition permutation_equal_runs d g : Prop :=
  ∀ sched1 sched2 s1 s2 data1 data2,
    run sched1 (generate_data d g) = Some s1 → pc s1 = MReturn data1 →
    run sched2 (generate_data d g) = Some s2 → pc s2 = MReturn data2 →
    data1 ≡ₚ data2.

End Vocabulary.

(** ** Schedules for the examples *)

(** Worker 0 alone makes [k] moves, then worker 1 alone [k] moves, and so
    on. *)
Definition one_by_one (workers k : nat) : list tid :=
  mjoin ((λ i, replicate k (Worker i)) <$> seq 0 workers).

(** Round robin: each worker in turn makes one move, [k] rounds. *)
Definition round_robin (workers k : nat) : list tid :=
  mjoin (replicate k (Worker <$> seq 0 workers)).

(** Two workers with one record each: the main thread starts both, the
    workers run one after the other (or in turns), the main thread joins and
    drains. *)
Definition sequential_2x1 : list tid :=
  replicate 3 Main ++ one_by_one 2 7 ++ replicate 6 Main.

Definition alternating_2x1 : list tid :=
  replicate 3 Main ++ round_robin 2 7 ++ replicate 6 Main.

(** One worker that dies while it builds its third record. *)
Definition failing_1x5 : list tid :=
  replicate 2 Main ++ replicate 12 (Worker 0) ++ replicate 5 Main.


(** Two workers with two iterations each and a source that raises from its
    ninth call on: worker 0 alone first, or the two in turns. *)
Definition raising_first_alone : list tid :=
  replicate 3 Main ++ replicate 12 (Worker 0) ++ replicate 2 (Worker 1)
  ++ replicate 6 Main.

Definition raising_in_turns : list tid :=
  replicate 3 Main ++ replicate 4 (Worker 0) ++ replicate 4 (Worker 1)
  ++ replicate 3 (Worker 0) ++ [Worker 1; Worker 0] ++ replicate 5 Main.

(** One worker with two records, started before or after the main thread
    reaches its [join] loop. *)
Definition solo_late : list tid :=
  replicate 2 Main ++ replicate 12 (Worker 0) ++ replicate 5 Main.

Definition solo_early : list tid :=
  [Main] ++ replicate 12 (Worker 0) ++ replicate 6 Main.

(** ** More vocabulary: calls made, run length, [main] *)

(** Calls to the random module a worker has made for the record it is
    building. *)
Definition inflight (w : wstate) : nat :=
  match w with
  | WAge _ _ => 1
  | WCity _ _ _ => 2
  | WSalary _ _ _ _ => 3
  | WPut _ _ => 4
  | _ => 0
  end.

(** Calls to the random module behind the records and fields that exist in
    a state. *)
Definition drawn {G : Type} (s : state G) : nat :=
  4 * (length (drained (pc s)) + length (data_queue s))
  + sum_list_with inflight (threads s).

(** 1 for a worker that ended by an exception. *)
Definition crashed (w : wstate) : nat :=
  match w with WCrashed => 1 | _ => 0 end.

(** The longest a run of [generate_data] can be: [measure] at the entry. *)
Definition run_bound (d : DataGenerator) : nat :=
  3 + range_len (num_threads d) * (6 * loop_len d + 4).

(** A row dict [DictWriter] accepts: no key outside the field names. *)
Definition well_keyed (row : gmap string pyval) : Prop :=
  dom row ⊆ list_to_set CSVWriter.fieldnames.

(** The row written for a dict: one cell per field name, empty where the
    key is missing. *)
Definition row_cells (row : gmap string pyval) : list string :=
  (λ key, from_option py_str EmptyString (row !! key))
    <$> CSVWriter.fieldnames.

(** [main]: the configuration it fixes, and what it leaves in the file it
    names, given the list [generate_data] returned. *)
Module Main.

Definition num_threads : Z := 4.

Definition num_records : Z := 100.

Definition filename : string := "sample_data.csv".

Definition data_generator : DataGenerator :=
  mkDataGenerator num_threads num_records.

Definition main (data : list Record_) : string * (list (list string) * bool) :=
  (filename, CSVWriter.write_to_csv (record_dict <$> data)).

End Main.

(** ** Basic facts about one step *)

(** Case analysis of one step: unfold the step functions in [H], split every
    [match] and keep the cases that can happen. *)
Ltac step_cases H :=
  unfold sched_step, _generate_worker, generate_data_step, _generate_name,
    _generate_city, set_worker, set_worker_rng in H;
  repeat match type of H with
         | context [match ?x with _ => _ end] => destruct x eqn:?
         end;
  simplify_eq/=.

Lemma sum_list_insert (f : wstate → nat) (l : list wstate) i w w' :
  l !! i = Some w →
  sum_list_with f (<[i := w']> l) + f w = sum_list_with f l + f w'.
Proof.
  revert i. induction l as [|x l IH]; intros [|i] Hi; simplify_eq/=; [lia|].
  specialize (IH _ Hi). lia.
Qed.

Lemma sum_list_snoc (f : wstate → nat) (l : list wstate) w :
  sum_list_with f (l ++ [w]) = sum_list_with f l + f w.
Proof. rewrite sum_list_with_app. simpl. lia. Qed.

Section Theory.
Context {G : Type} `{RandomSource G}.
Implicit Types (s : state G) (d : DataGenerator) (g : G).

(** [generate_data] never assigns to [self]. *)
Lemma step_self t s s' : sched_step t s = Some s' → self s' = self s.
Proof. intros Hs. destruct t; step_cases Hs; done. Qed.

Lemma run_self sched s s' : run sched s = Some s' → self s' = self s.
Proof.
  revert s. induction sched as [|t sched IH]; intros s Hr; simplify_eq/=.
  - done.
  - destruct (sched_step t s) as [s1|] eqn:Hs; [|done].
    rewrite (IH _ Hr). by eapply step_self.
Qed.

Lemma run_app sched1 sched2 s :
  run (sched1 ++ sched2) s = run sched1 s ≫= run sched2.
Proof.
  revert s. induction sched1 as [|t sched1 IH]; intros s; simpl; [done|].
  destruct (sched_step t s); simpl; [apply IH | done].
Qed.

(** *** Every schedule is finite, and no state is stuck before [return] *)

Lemma step_measure t s s' :
  sched_step t s = Some s' → measure s' < measure s.
Proof.
  intros Hs. unfold measure. destruct t as [|i].
  - step_cases Hs; rewrite ?length_app, ?sum_list_snoc; simpl; try lia.
    match goal with Hl : threads s !! _ = Some _ |- _ =>
      apply lookup_lt_Some in Hl end. lia.
  - step_cases Hs; rewrite ?length_insert, ?length_app; simpl;
      match goal with Hl : threads s !! _ = Some ?w |- _ =>
        match goal with |- context [<[_ := ?w']> _] =>
          pose proof (sum_list_insert (wmeasure (loop_len (self s)))
                        _ _ _ w' Hl) as Hsum
        end
      end; simpl in Hsum; unfold loop_len in *;
      repeat case_match; simplify_eq/=; lia.
Qed.

Lemma run_bounded sched s s' :
  run sched s = Some s' → length sched + measure s' ≤ measure s.
Proof.
  revert s. induction sched as [|t sched IH]; intros s Hr; simplify_eq/=.
  - lia.
  - destruct (sched_step t s) as [s1|] eqn:Hs; [|done].
    apply IH in Hr. apply step_measure in Hs. lia.
Qed.

(** A thread that has not finished can always move. *)
Lemma worker_enabled i s w :
  threads s !! i = Some w → finished w = false →
  is_Some (_generate_worker i s).
Proof.
  intros Hw Hf. unfold _generate_worker. rewrite Hw.
  destruct w as [|[|k]| | | | | |]; simplify_eq/=; repeat case_match; eauto.
Qed.

Lemma progress s :
  (∃ data, pc s = MReturn data) ∨ ∃ t s', sched_step t s = Some s'.
Proof.
  destruct (pc s) as [[|k]|i|data|data] eqn:Hpc; [..|by eauto];
    right.
  - exists Main. simpl. unfold generate_data_step. rewrite Hpc. eauto.
  - exists Main. simpl. unfold generate_data_step. rewrite Hpc. eauto.
  - destruct (threads s !! i) as [w|] eqn:Hw.
    + destruct (finished w) eqn:Hf.
      * exists Main. simpl. unfold generate_data_step. rewrite Hpc, Hw, Hf. eauto.
      * destruct (worker_enabled i s w Hw Hf) as [s' Hs'].
        exists (Worker i), s'. done.
    + exists Main. simpl. unfold generate_data_step. rewrite Hpc, Hw. eauto.
  - exists Main. simpl. unfold generate_data_step. rewrite Hpc.
    destruct (data_queue s); eauto.
Qed.

(** From every state some schedule reaches [return]. *)
Lemma can_return s : ∃ data, returns s data.
Proof.
  remember (measure s) as n eqn:Hn. revert s Hn.
  induction n as [n IH] using lt_wf_ind. intros s ->.
  destruct (progress s) as [[data Hd]|(t & s' & Hs)].
  - exists data, [], s. done.
  - destruct (IH (measure s') (step_measure _ _ _ Hs) s' eq_refl)
      as (data & sched & s'' & Hr & Hd).
    exists data, (t :: sched), s''. simpl. by rewrite Hs.
Qed.

(** *** What the main thread knows: thread count, joined threads *)

Lemma main_inv_init d g : main_inv (generate_data d g).
Proof. split; simpl; [lia|done|done]. Qed.

Lemma joined_unfinished m ws i w :
  joined m ws → ws !! i = Some w → finished w = false →
  match m with
  | MSpawn _ => True
  | MJoin j => j ≤ i
  | MDrain _ | MReturn _ => False
  end.
Proof.
  intros Hj Hw Hf. destruct m as [k|j|data|data]; simpl in *; [done|..].
  - destruct (decide (j ≤ i)) as [|Hlt]; [done|].
    assert (take j ws !! i = Some w) as Ht
      by (rewrite lookup_take_lt by lia; done).
    pose proof (Forall_lookup_1 _ _ _ _ Hj Ht) as Hfin. simpl in Hfin.
    congruence.
  - pose proof (Forall_lookup_1 _ _ _ _ Hj Hw) as Hfin. simpl in Hfin.
    congruence.
  - pose proof (Forall_lookup_1 _ _ _ _ Hj Hw) as Hfin. simpl in Hfin.
    congruence.
Qed.

Lemma joined_insert m ws i w w' :
  joined m ws → ws !! i = Some w → finished w = false →
  joined m (<[i := w']> ws).
Proof.
  intros Hj Hw Hf. pose proof (joined_unfinished _ _ _ _ Hj Hw Hf) as Hle.
  destruct m as [k|j|data|data]; simpl in *; [done| |done..].
  by rewrite take_insert_ge.
Qed.

Lemma step_main_inv t s s' :
  sched_step t s = Some s' → main_inv s → main_inv s'.
Proof.
  intros Hs [Hn Hj Hq]. destruct t as [|i].
  - step_cases Hs; split; simpl in *;
      rewrite ?length_app; simpl; try done; try lia.
    + erewrite take_S_r by done.
      apply Forall_app_2; [done|]. by apply Forall_singleton.
    + match goal with Hl : threads s !! _ = None |- _ =>
        apply lookup_ge_None_1 in Hl end.
      by rewrite take_ge in Hj.
  - assert (∃ w, threads s !! i = Some w ∧ finished w = false) as (w & Hw & Hf).
    { unfold sched_step, _generate_worker in Hs.
      destruct (threads s !! i) as [[]|]; simplify_eq/=; eauto. }
    pose proof (joined_unfinished _ _ _ _ Hj Hw Hf) as Hle.
    step_cases Hs; split; simpl;
      rewrite ?length_insert; try done;
      try (by eapply joined_insert);
      intros data Hd; rewrite Hd in Hle; done.
Qed.

Lemma run_main_inv sched s s' :
  run sched s = Some s' → main_inv s → main_inv s'.
Proof.
  revert s. induction sched as [|t sched IH]; intros s Hr Hi; simplify_eq/=.
  - done.
  - destruct (sched_step t s) as [s1|] eqn:Hs; [|done].
    eauto using step_main_inv.
Qed.

(** *** The log of [put] calls *)

Lemma step_puts t s s' :
  sched_step t s = Some s' →
  drained (pc s') ++ data_queue s'
  = (drained (pc s) ++ data_queue s) ++ (put_event t s).*2.
Proof.
  intros Hs. destruct t as [|i]; step_cases Hs;
    repeat match goal with Hp : pc s = _ |- _ => rewrite Hp; clear Hp end;
    repeat match goal with Hp : threads s !! _ = _ |- _ =>
             rewrite Hp; clear Hp end;
    repeat match goal with Hp : data_queue s = _ |- _ =>
             rewrite Hp; clear Hp end;
    simpl; rewrite ?app_nil_r, <-?app_assoc; done.
Qed.

(** The queue and the list being built hold the records put so far, in
    the order of the [put] calls: none lost, none twice, none altered. *)
Lemma run_puts sched s s' :
  run sched s = Some s' →
  drained (pc s') ++ data_queue s'
  = (drained (pc s) ++ data_queue s) ++ (puts sched s).*2.
Proof.
  revert s. induction sched as [|t sched IH]; intros s Hr; simplify_eq/=.
  - by rewrite app_nil_r.
  - destruct (sched_step t s) as [s1|] eqn:Hs; [|done].
    rewrite (IH _ Hr), (step_puts _ _ _ Hs), fmap_app, app_assoc. done.
Qed.

Lemma returned_puts sched d g s data :
  run sched (generate_data d g) = Some s → pc s = MReturn data →
  data = (puts sched (generate_data d g)).*2.
Proof.
  intros Hr Hd. pose proof (run_puts _ _ _ Hr) as Hp.
  pose proof (run_main_inv _ _ _ Hr (main_inv_init d g)) as [_ _ Hq].
  rewrite (Hq _ Hd), Hd in Hp. simpl in Hp. by rewrite app_nil_r in Hp.
Qed.

(** *** Counting records when no call raises *)

Lemma rem_finished q ws :
  Forall (λ w, finished w = true) ws → sum_list_with (rem q) ws = 0.
Proof.
  induction 1 as [|w ws Hw _ IH]; simpl; [done|].
  rewrite IH. by destruct w.
Qed.

Lemma floordiv_spawned s i w :
  main_inv s → threads s !! i = Some w →
  floordiv (num_records (self s)) (num_threads (self s))
  = Some (num_records (self s) `div` num_threads (self s))%Z.
Proof.
  intros [Hn _ _] Hw. apply lookup_lt_Some in Hw.
  unfold floordiv, range_len in *. case_decide as Hz; [|done].
  rewrite Hz in Hn. simpl in Hn. lia.
Qed.

Section Total.
Context `{!RandomTotal G}.

Ltac no_raise :=
  match goal with
  | Hc : randint ?a ?b ?g = (None, _) |- _ =>
      let Hx := fresh in
      assert (is_Some (randint a b g).1) as Hx
        by (apply randint_total; lia);
      rewrite Hc in Hx; by destruct Hx
  | Hc : choice ?l ?g = (None, _) |- _ =>
      let Hx := fresh in
      assert (is_Some (choice l g).1) as Hx
        by (by apply choice_total);
      rewrite Hc in Hx; by destruct Hx
  end.

(** A worker's action when nothing raises: it moves to a state that is
    not [WCrashed], and it has one record less to put exactly when the
    action is a [put]. *)
Lemma worker_step_total i s s' :
  main_inv s → _generate_worker i s = Some s' →
  ∃ w w', threads s !! i = Some w
    ∧ threads s' = <[i := w']> (threads s)
    ∧ pc s' = pc s
    ∧ data_queue s' = data_queue s ++ (put_event (Worker i) s).*2
    ∧ rem (loop_len (self s)) w
      = rem (loop_len (self s)) w' + length (put_event (Worker i) s)
    ∧ w' ≠ WCrashed.
Proof.
  intros Hi Hs. change (sched_step (Worker i) s = Some s') in Hs.
  step_cases Hs; try no_raise;
    match goal with Hl : threads s !! i = Some _ |- _ =>
      pose proof (floordiv_spawned _ _ _ Hi Hl) as Hfd;
      unfold put_event; rewrite ?Hl end;
    try congruence;
    (eexists _, _; split_and!; [done|done|done|..]);
    simpl; rewrite ?app_nil_r; try done; try lia;
    unfold loop_len;
    match goal with Hf : floordiv _ _ = Some ?z |- _ =>
      is_var z; rewrite Hfd in Hf
    end;
    simplify_eq; rewrite Hfd; lia.
Qed.

Lemma step_pending t s s' :
  main_inv s → sched_step t s = Some s' → pending s' = pending s.
Proof.
  intros Hi Hs. unfold pending. rewrite (step_self _ _ _ Hs).
  destruct t as [|i].
  - step_cases Hs;
      repeat match goal with Hp : pc s = _ |- _ => rewrite Hp; clear Hp end;
      repeat match goal with Hp : data_queue s = _ |- _ =>
               rewrite Hp; clear Hp end;
      simpl; rewrite ?length_app, ?sum_list_snoc; simpl; lia.
  - destruct (worker_step_total _ _ _ Hi Hs)
      as (w & w' & Hw & -> & -> & -> & Hrem & _).
    pose proof (sum_list_insert (rem (loop_len (self s))) _ _ _ w' Hw).
    rewrite length_app, length_fmap. lia.
Qed.

Lemma run_pending sched s s' :
  main_inv s → run sched s = Some s' → pending s' = pending s.
Proof.
  revert s. induction sched as [|t sched IH]; intros s Hi Hr; simplify_eq/=.
  - done.
  - destruct (sched_step t s) as [s1|] eqn:Hs; [|done].
    rewrite (IH s1); eauto using step_main_inv, step_pending.
Qed.

(** The length of what [generate_data] returns, for every [self]. *)
Lemma returned_length sched d g s data :
  run sched (generate_data d g) = Some s → pc s = MReturn data →
  length data = range_len (num_threads d) * loop_len d.
Proof.
  intros Hr Hd.
  pose proof (run_main_inv _ _ _ Hr (main_inv_init d g)) as [_ Hj Hq].
  pose proof (run_pending _ _ _ (main_inv_init d g) Hr) as Hp.
  unfold pending in Hp. rewrite (run_self _ _ _ Hr) in Hp.
  rewrite Hd in Hp, Hj. simpl in Hp, Hj.
  rewrite (Hq _ Hd), (rem_finished _ _ Hj) in Hp. simpl in Hp. lia.
Qed.

(** No thread ends by an exception. *)
Lemma step_alive t s s' :
  main_inv s → sched_step t s = Some s' →
  Forall (λ w, w ≠ WCrashed) (threads s) →
  Forall (λ w, w ≠ WCrashed) (threads s').
Proof.
  intros Hi Hs Ha. destruct t as [|i].
  - step_cases Hs; try done. apply Forall_app_2; [done|].
    by apply Forall_singleton.
  - destruct (worker_step_total _ _ _ Hi Hs)
      as (w & w' & Hw & -> & _ & _ & _ & Hw').
    by apply Forall_insert.
Qed.

Lemma run_alive sched s s' :
  main_inv s → run sched s = Some s' →
  Forall (λ w, w ≠ WCrashed) (threads s) →
  Forall (λ w, w ≠ WCrashed) (threads s').
Proof.
  revert s. induction sched as [|t sched IH]; intros s Hi Hr Ha;
    simplify_eq/=.
  - done.
  - destruct (sched_step t s) as [s1|] eqn:Hs; [|done].
    eapply (IH s1); eauto using step_main_inv, step_alive.
Qed.

(** *** Per worker: each one puts exactly its share *)

Lemma puts_by_app i log1 log2 :
  puts_by i (log1 ++ log2) = puts_by i log1 ++ puts_by i log2.
Proof. unfold puts_by. by rewrite filter_app, fmap_app. Qed.

Lemma puts_by_event i j s :
  puts_by i (put_event (Worker j) s)
  = if decide (i = j) then (put_event (Worker j) s).*2 else [].
Proof.
  unfold puts_by, put_event.
  destruct (threads s !! j) as [[]|]; try by case_decide.
  rewrite filter_cons. simpl. rewrite filter_nil.
  destruct (decide (j = i)), (decide (i = j)); simplify_eq/=; done.
Qed.

Lemma put_event_bound t s :
  Forall (λ e, e.1 < length (threads s)) (put_event t s).
Proof.
  destruct t as [|i]; simpl; [done|].
  destruct (threads s !! i) as [w|] eqn:Hw; [|done].
  apply lookup_lt_Some in Hw. destruct w; try done.
  by apply Forall_singleton.
Qed.

Lemma puts_by_fresh i log n :
  Forall (λ e : nat * Record_, e.1 < n) log → n ≤ i → puts_by i log = [].
Proof.
  intros Hb Hi. unfold puts_by.
  induction Hb as [|e log He _ IH]; [done|].
  rewrite filter_cons. case_decide; [lia|done].
Qed.

Lemma step_share t s s' log :
  main_inv s → sched_step t s = Some s' →
  share_inv log s → share_inv (log ++ put_event t s) s'.
Proof.
  intros Hi Hs [Hsh Hb]. pose proof (put_event_bound t s) as Hbe.
  unfold share_inv. rewrite (step_self _ _ _ Hs). destruct t as [|j].
  - simpl. rewrite app_nil_r.
    step_cases Hs; try done. split.
    + intros i w Hw. apply lookup_app_Some in Hw as [Hw|[Hge Hw]]; [eauto|].
      apply list_lookup_singleton_Some in Hw as [_ <-]. simpl.
      rewrite (puts_by_fresh _ _ _ Hb Hge). simpl. lia.
    + rewrite length_app. simpl.
      eapply Forall_impl; [done|]. simpl. lia.
  - destruct (worker_step_total _ _ _ Hi Hs)
      as (w & w' & Hw & -> & _ & _ & Hrem & _).
    rewrite length_insert. split; [|by apply Forall_app_2].
    intros i wi Hwi. rewrite puts_by_app, puts_by_event, length_app.
    destruct (decide (i = j)) as [->|Hne].
    + rewrite list_lookup_insert_eq in Hwi by by eapply lookup_lt_Some.
      simplify_eq. specialize (Hsh _ _ Hw).
      rewrite length_fmap. lia.
    + rewrite list_lookup_insert_ne in Hwi by done.
      specialize (Hsh _ _ Hwi). simpl. lia.
Qed.

Lemma run_share sched s s' log :
  main_inv s → run sched s = Some s' →
  share_inv log s → share_inv (log ++ puts sched s) s'.
Proof.
  revert s log. induction sched as [|t sched IH]; intros s log Hi Hr Hsh;
    simplify_eq/=.
  - by rewrite app_nil_r.
  - destruct (sched_step t s) as [s1|] eqn:Hs; [|done].
    rewrite app_assoc.
    eapply IH; eauto using step_main_inv, step_share.
Qed.

(** When [generate_data] returns, every worker has put its whole
    share. *)
Lemma returned_share sched d g s data i :
  run sched (generate_data d g) = Some s → pc s = MReturn data →
  i < range_len (num_threads d) →
  length (puts_by i (puts sched (generate_data d g))) = loop_len d.
Proof.
  intros Hr Hd Hi.
  pose proof (run_main_inv _ _ _ Hr (main_inv_init d g)) as [Hn Hj _].
  assert (share_inv [] (generate_data d g)) as Hsh0 by (by split).
  pose proof (run_share _ _ _ _ (main_inv_init d g) Hr Hsh0) as [Hsh _].
  rewrite (run_self _ _ _ Hr) in Hsh, Hn. simpl in Hsh, Hn.
  rewrite Hd in Hn, Hj. simpl in Hn, Hj.
  destruct (lookup_lt_is_Some_2 (threads s) i) as [w Hw]; [lia|].
  specialize (Hsh _ _ Hw).
  pose proof (Forall_lookup_1 _ _ _ _ Hj Hw) as Hf. simpl in Hf.
  destruct w; simplify_eq/=; lia.
Qed.

End Total.

(** *** Field ranges *)

Lemma valid_inv_init d g : valid_inv (generate_data d g).
Proof. by split. Qed.

Section Sound.
Context `{!RandomSound G}.

Lemma step_valid t s s' :
  sched_step t s = Some s' → valid_inv s → valid_inv s'.
Proof.
  intros Hs [Ht Hq Hd]. destruct t as [|i].
  - step_cases Hs; split; simpl; try done;
      repeat match goal with Hp : pc s = _ |- _ =>
               rewrite Hp in Hd; clear Hp end;
      repeat match goal with Hp : data_queue s = _ |- _ =>
               rewrite Hp in Hq; clear Hp end;
      simpl in *;
      try (apply Forall_app_2; [done|]; apply Forall_singleton);
      try done; by inversion Hq.
  - step_cases Hs;
      match goal with Hl : threads s !! i = Some _ |- _ =>
        pose proof (Forall_lookup_1 _ _ _ _ Ht Hl) as Hv; simpl in Hv
      end;
      repeat match goal with
             | Hc : randint ?a ?b ?g = (Some ?z, _) |- _ =>
                 let Hr := fresh "Hr" in
                 pose proof (randint_sound a b g z) as Hr;
                 rewrite Hc in Hr; clear Hc; specialize (Hr eq_refl)
             | Hc : choice ?l ?g = (Some ?x, _) |- _ =>
                 let Hr := fresh "Hr" in
                 pose proof (choice_sound l g x) as Hr;
                 rewrite Hc in Hr; clear Hc; specialize (Hr eq_refl)
             end;
      split; simpl; try done;
      try (apply Forall_insert; [done|]; simpl;
           unfold valid_record in *; simpl in *;
           destruct_and?; split_and?; first [done | lia]).
    apply Forall_app_2; [done|]. by apply Forall_singleton.
Qed.

Lemma run_valid sched s s' :
  run sched s = Some s' → valid_inv s → valid_inv s'.
Proof.
  revert s. induction sched as [|t sched IH]; intros s Hr Hv;
    simplify_eq/=.
  - done.
  - destruct (sched_step t s) as [s1|] eqn:Hs; [|done].
    eauto using step_valid.
Qed.

Lemma returned_valid sched d g s data :
  run sched (generate_data d g) = Some s → pc s = MReturn data →
  Forall valid_record data.
Proof.
  intros Hr Hd. destruct (run_valid _ _ _ Hr (valid_inv_init d g))
    as [_ _ Hv].
  by rewrite Hd in Hv.
Qed.

End Sound.

(** *** One worker alone *)

Lemma step_alone t s s' :
  main_inv s → range_len (num_threads (self s)) = 1 →
  sched_step t s = Some s' → total_alone s' = total_alone s.
Proof.
  intros [Hn _ _] H1 Hs. unfold total_alone.
  rewrite (step_self _ _ _ Hs). destruct t as [|i].
  - step_cases Hs;
      repeat match goal with Hp : pc s = _ |- _ =>
               rewrite Hp in *; clear Hp end;
      repeat match goal with Hp : data_queue s = _ |- _ =>
               rewrite Hp in *; clear Hp end;
      simpl in *; rewrite <-?app_assoc; try done.
    destruct (threads s); simpl in *; [done|lia].
  - assert (i = 0 ∧ ∃ w, threads s = [w]) as [-> [w Hw]].
    { destruct (threads s) as [|w [|]] eqn:Ht; simpl in *.
      - unfold sched_step, _generate_worker in Hs. rewrite Ht in Hs. done.
      - destruct i; [eauto|].
        unfold sched_step, _generate_worker in Hs. rewrite Ht in Hs. done.
      - lia. }
    unfold sched_step, _generate_worker, set_worker, set_worker_rng in Hs.
    rewrite Hw in *. simpl in Hs.
    destruct w as [|[|k]| | | | | |]; simpl in *;
      unfold loop_len, build_record;
      repeat match type of Hs with
             | context [match ?x with _ => _ end] => destruct x eqn:?
             end;
      simplify_eq/=; rewrite <-?app_assoc; simpl; try done;
      repeat case_match; simplify_eq/=; done.
Qed.

Lemma run_alone sched s s' :
  main_inv s → range_len (num_threads (self s)) = 1 →
  run sched s = Some s' → total_alone s' = total_alone s.
Proof.
  revert s. induction sched as [|t sched IH]; intros s Hi H1 Hr;
    simplify_eq/=.
  - done.
  - destruct (sched_step t s) as [s1|] eqn:Hs; [|done].
    rewrite (IH s1); eauto using step_main_inv, step_alone.
    by rewrite (step_self _ _ _ Hs).
Qed.

(** With one worker [generate_data] returns what the loop run alone
    gives, whatever the schedule. *)
Lemma returned_alone sched d g s data :
  num_threads d = 1%Z →
  run sched (generate_data d g) = Some s → pc s = MReturn data →
  data = loop_alone (loop_len d) g.
Proof.
  intros H1 Hr Hd.
  assert (range_len (num_threads (self (generate_data d g))) = 1) as H1'
    by (simpl; rewrite H1; done).
  pose proof (run_main_inv _ _ _ Hr (main_inv_init d g)) as [Hn Hj Hq].
  pose proof (run_alone _ _ _ (main_inv_init d g) H1' Hr) as Ha.
  unfold total_alone in Ha. rewrite (run_self _ _ _ Hr) in Ha, Hn.
  simpl in Ha, Hn. rewrite (Hq _ Hd), Hd in Ha. rewrite Hd in Hj, Hn.
  simpl in *. rewrite H1 in Hn.
  destruct (threads s) as [|w [|]]; simpl in *; try (compute in Hn; lia).
  apply Forall_cons_1 in Hj as [Hf _].
  destruct w; simplify_eq/=; by rewrite app_nil_r in Ha.
Qed.

(** *** Calls that produce nothing *)

Lemma quiet_inv_init d g : quiet_inv g (generate_data d g).
Proof. by split. Qed.

Lemma step_quiet g0 t s s' :
  (num_threads (self s) ≤ 0 ∨ num_records (self s) < 0)%Z →
  main_inv s → sched_step t s = Some s' →
  quiet_inv g0 s → quiet_inv g0 s'.
Proof.
  intros Hc Hi Hs [Ht Hq Hd Hg]. destruct t as [|i].
  - step_cases Hs; split; simpl; try done;
      repeat match goal with Hp : pc s = _ |- _ =>
               rewrite Hp in *; clear Hp end;
      simpl in *; try congruence.
    apply Forall_app_2; [done|]. apply Forall_singleton. by left.
  - assert (∃ w, threads s !! i = Some w) as [w Hw].
    { unfold sched_step, _generate_worker in Hs.
      destruct (threads s !! i); [eauto|done]. }
    pose proof (Forall_lookup_1 _ _ _ _ Ht Hw) as Hw'.
    pose proof (floordiv_spawned _ _ _ Hi Hw) as Hfd.
    assert (0 < num_threads (self s))%Z as Hpos.
    { destruct Hi as [Hn _ _]. apply lookup_lt_Some in Hw.
      unfold range_len in Hn. lia. }
    step_cases Hs; destruct Hw' as [?|[?|?]]; simplify_eq;
      split; simpl; try done; apply Forall_insert; try done; auto.
    right; left. f_equal. unfold range_len.
    assert (num_records (self s) `div` num_threads (self s) < 0)%Z
      by (apply Z.div_lt_upper_bound; lia).
    lia.
Qed.

Lemma run_quiet g0 sched s s' :
  (num_threads (self s) ≤ 0 ∨ num_records (self s) < 0)%Z →
  main_inv s → run sched s = Some s' →
  quiet_inv g0 s → quiet_inv g0 s'.
Proof.
  revert s. induction sched as [|t sched IH]; intros s Hc Hi Hr Hq;
    simplify_eq/=.
  - done.
  - destruct (sched_step t s) as [s1|] eqn:Hs; [|done].
    eapply (IH s1); eauto using step_main_inv, step_quiet.
    by rewrite (step_self _ _ _ Hs).
Qed.

(** Without a thread to start, only the main thread ever moves. *)
Lemma run_main_only sched s s' :
  main_inv s → range_len (num_threads (self s)) = 0 →
  run sched s = Some s' → Forall (λ t, t = Main) sched ∧ threads s' = [].
Proof.
  revert s. induction sched as [|t sched IH]; intros s Hi H0 Hr;
    simplify_eq/=.
  - split; [done|]. destruct Hi as [Hn _ _].
    destruct (threads s'); simpl in *; [done|lia].
  - destruct (sched_step t s) as [s1|] eqn:Hs; [|done].
    destruct (IH s1) as [Hm Ht]; eauto using step_main_inv.
    { by rewrite (step_self _ _ _ Hs). }
    split; [|done]. constructor; [|done].
    destruct t as [|i]; [done|]. destruct Hi as [Hn _ _].
    unfold sched_step, _generate_worker in Hs.
    destruct (threads s !! i) as [w|] eqn:Hw; [|done].
    apply lookup_lt_Some in Hw. lia.
Qed.

End Theory.

(** ** The concrete sources meet the interface *)

#[export] Instance counter_total : RandomTotal counter.
Proof.
  split.
  - intros a b g Hab. simpl. unfold counter_randint.
    case_decide; [eauto|lia].
  - intros l g Hl. simpl. apply lookup_lt_is_Some_2.
    destruct l; [done|]. apply Nat.mod_upper_bound. done.
Qed.

#[export] Instance counter_sound : RandomSound counter.
Proof.
  split.
  - intros a b g z. simpl. unfold counter_randint.
    case_decide; [|done]. intros [= <-].
    pose proof (Z.mod_pos_bound (Z.of_nat (ticks g)) (b - a + 1)). lia.
  - intros l g x. simpl. intros Hx. by eapply list_elem_of_lookup_2.
Qed.

#[export] Instance flaky_sound : RandomSound flaky.
Proof.
  split.
  - intros a b g z. simpl. unfold flaky_randint.
    destruct (budget g); [done|].
    exact (randint_sound (G := counter) a b (made g) z).
  - intros l g x. simpl. unfold flaky_choice.
    destruct (budget g); [done|].
    exact (choice_sound (G := counter) l (made g) x).
Qed.

(** ** The CSV sink *)

Lemma dict_to_list_record r :
  CSVWriter.dict_to_list CSVWriter.fieldnames (record_dict r)
  = Some (CSVWriter.cells r).
Proof.
  unfold CSVWriter.dict_to_list, record_dict, CSVWriter.fieldnames,
    CSVWriter.cells.
  case_decide as Hd.
  - simpl. by simplify_map_eq.
  - exfalso. apply Hd. rewrite !dom_insert_L. set_solver.
Qed.

Lemma write_rows_records rs :
  CSVWriter.write_rows CSVWriter.fieldnames (record_dict <$> rs)
  = (CSVWriter.cells <$> rs, true).
Proof.
  induction rs as [|r rs IH]; [done|].
  rewrite !fmap_cons. cbn [CSVWriter.write_rows].
  by rewrite dict_to_list_record, IH.
Qed.

(** ** Properties of [generate_data] and [write_to_csv] *)

Example sequential_2x1_run :
  pc <$> run sequential_2x1 (generate_data (mkDataGenerator 2 2) (Counter 0))
  = Some (MReturn [mkRecord "Alice" 21 "Chicago" 30003;
                   mkRecord "Eve" 25 "Los Angeles" 30007]).
Proof. vm_compute. reflexivity. Qed.

Example alternating_2x1_run :
  pc <$> run alternating_2x1 (generate_data (mkDataGenerator 2 2) (Counter 0))
  = Some (MReturn [mkRecord "Alice" 22 "Miami" 30006;
                   mkRecord "Bob" 23 "New York" 30007]).
Proof. vm_compute. reflexivity. Qed.

(** One worker, five records asked, a source that raises from its ninth
    call on (the first call for the third record): the worker puts two
    records and dies, and [generate_data] returns those two. *)
Example failing_1x5_run :
  (λ s, (pc s, threads s))
    <$> run failing_1x5
          (generate_data (mkDataGenerator 1 5) (Flaky 8 (Counter 0)))
  = Some (MReturn [mkRecord "Alice" 21 "Chicago" 30003;
                   mkRecord "Eve" 25 "Los Angeles" 30007],
          [WCrashed]).
Proof. vm_compute. reflexivity. Qed.

Example solo_late_run :
  pc <$> run solo_late (generate_data (mkDataGenerator 1 2) (Counter 0))
  = Some (MReturn [mkRecord "Alice" 21 "Chicago" 30003;
                   mkRecord "Eve" 25 "Los Angeles" 30007]).
Proof. vm_compute. reflexivity. Qed.

Example solo_early_run :
  pc <$> run solo_early (generate_data (mkDataGenerator 1 2) (Counter 0))
  = Some (MReturn [mkRecord "Alice" 21 "Chicago" 30003;
                   mkRecord "Eve" 25 "Los Angeles" 30007]).
Proof. vm_compute. reflexivity. Qed.

Lemma loop_len_pos d :
  (1 ≤ num_threads d)%Z →
  loop_len d = range_len (num_records d `div` num_threads d).
Proof. intros Hw. unfold loop_len, floordiv. case_decide; [lia|done]. Qed.

(** C1. For [num_threads >= 1] and [num_records >= 0], [generate_data]
    returns: every run is finite and can be continued up to [return]. Every
    list it can return has length [(num_records // num_threads) *
    num_threads]: the remainder is dropped. *)
Theorem generate_data_length {G : Type} `{RandomSource G} `{!RandomTotal G}
    (d : DataGenerator) (g : G) :
  (1 ≤ num_threads d)%Z → (0 ≤ num_records d)%Z →
  (∀ sched s,
     run sched (generate_data d g) = Some s →
     length sched ≤ measure (generate_data d g)
     ∧ ∃ data, returns s data)
  ∧ (∃ data, returns (generate_data d g) data)
  ∧ ∀ data, returns (generate_data d g) data →
      Z.of_nat (length data)
      = (num_records d `div` num_threads d * num_threads d)%Z.
Proof.
  intros Hw Hn. split_and!.
  - intros sched s Hr. split; [|apply can_return].
    pose proof (run_bounded _ _ _ Hr). lia.
  - apply can_return.
  - intros data (sched & s & Hr & Hd).
    rewrite (returned_length _ _ _ _ _ Hr Hd), (loop_len_pos _ Hw).
    unfold range_len.
    assert (0 ≤ num_records d `div` num_threads d)%Z
      by (apply Z.div_pos; lia).
    rewrite Nat2Z.inj_mul, !Z2Nat.id by lia. lia.
Qed.

(** [generate_data(4, 101)] returns exactly 100 records. *)
Lemma generate_data_length_witness :
  (∀ sched s,
     run sched (generate_data (mkDataGenerator 4 101) (Counter 0)) = Some s →
     length sched ≤ measure (generate_data (mkDataGenerator 4 101) (Counter 0))
     ∧ ∃ data, returns s data)
  ∧ (∃ data,
       returns (generate_data (mkDataGenerator 4 101) (Counter 0)) data)
  ∧ ∀ data,
      returns (generate_data (mkDataGenerator 4 101) (Counter 0)) data →
      Z.of_nat (length data) = 100%Z.
Proof.
  apply (generate_data_length (mkDataGenerator 4 101) (Counter 0));
    simpl; lia.
Defined.

Lemma run_result {G : Type} `{RandomSource G} {A : Type}
    (f : state G → A) sched (s0 : state G) a :
  f <$> run sched s0 = Some a → ∃ s, run sched s0 = Some s ∧ f s = a.
Proof. destruct (run sched s0) as [s|]; intros [= <-]; eauto. Qed.







Lemma returns_of_run {G : Type} `{RandomSource G} sched (s0 : state G) data :
  pc <$> run sched s0 = Some (MReturn data) → returns s0 data.
Proof.
  intros Hrun. destruct (run_result _ _ _ _ Hrun) as (s & Hr & Hp).
  by exists sched, s.
Qed.

Lemma returns_of_run_threads {G : Type} `{RandomSource G}
    sched (s0 : state G) data ws :
  (λ s, (pc s, threads s)) <$> run sched s0 = Some (MReturn data, ws) →
  returns s0 data.
Proof.
  intros Hrun. destruct (run_result _ _ _ _ Hrun) as (s & Hr & [= Hp _]).
  by exists sched, s.
Qed.

Example zero_threads_run :
  pc <$> run (replicate 3 Main)
           (generate_data (mkDataGenerator 0 100) (Counter 0))
  = Some (MReturn []).
Proof. vm_compute. reflexivity. Qed.

(** Four threads asked for -1 records: all four are started, none loops. *)
Example negative_records_run :
  (λ s, (pc s, threads s))
    <$> run (replicate 5 Main ++ one_by_one 4 2 ++ replicate 6 Main)
          (generate_data (mkDataGenerator 4 (-1)) (Counter 0))
  = Some (MReturn [], [WDone; WDone; WDone; WDone]).
Proof. vm_compute. reflexivity. Qed.

(** C3, as the spec states it, fails: no configuration is rejected. With
    zero [num_threads], and with negative [num_records], the call returns
    the empty list. *)
Lemma invalid_configuration_not_raised :
  ¬ (∀ d, (num_threads d ≤ 0)%Z → call_raises d (Counter 0))
  ∧ ¬ (∀ d, (num_records d < 0)%Z → call_raises d (Counter 0)).
Proof.
  split; intros Hc.
  - apply (Hc (mkDataGenerator 0 100) ltac:(simpl; lia) []).
    exact (returns_of_run _ _ _ zero_threads_run).
  - apply (Hc (mkDataGenerator 4 (-1)) ltac:(simpl; lia) []).
    exact (returns_of_run_threads _ _ _ _ negative_records_run).
Qed.

(** C3, amended. For [num_threads <= 0] (any [num_records]) and for negative
    [num_records], [generate_data] checks nothing and raises nothing: it
    returns, and it returns the empty list; no worker ends by an exception,
    nothing is ever put on the queue and the random module is not called. *)
Theorem invalid_configuration_returns_empty {G : Type} `{RandomSource G}
    (d : DataGenerator) (g : G) :
  (num_threads d ≤ 0 ∨ num_records d < 0)%Z →
  returns (generate_data d g) []
  ∧ ∀ sched s,
      run sched (generate_data d g) = Some s →
      data_queue s = [] ∧ rng s = g
      ∧ Forall (λ w, w ≠ WCrashed) (threads s)
      ∧ ∀ data, pc s = MReturn data → data = [].
Proof.
  intros Hc.
  assert (∀ sched s, run sched (generate_data d g) = Some s →
            data_queue s = [] ∧ rng s = g
            ∧ Forall (λ w, w ≠ WCrashed) (threads s)
            ∧ ∀ data, pc s = MReturn data → data = []) as Hall.
  { intros sched s Hr.
    destruct (run_quiet g sched (generate_data d g) s Hc (main_inv_init d g) Hr
                (quiet_inv_init d g)) as [Ht Hq Hd Hg].
    split_and!; [done|done| |].
    - eapply Forall_impl; [done|]. simpl. intros w [-> | [-> | ->]]; done.
    - intros data Hp. by rewrite Hp in Hd. }
  split; [|done].
  destruct (can_return (generate_data d g)) as (data & sched & s & Hr & Hd).
  destruct (Hall _ _ Hr) as (_ & _ & _ & He).
  rewrite (He _ Hd) in Hd. by exists sched, s.
Qed.

Lemma invalid_configuration_returns_empty_witness :
  returns (generate_data (mkDataGenerator 4 (-1)) (Counter 0)) []
  ∧ ∀ sched s,
      run sched (generate_data (mkDataGenerator 4 (-1)) (Counter 0)) = Some s →
      data_queue s = [] ∧ rng s = Counter 0
      ∧ Forall (λ w, w ≠ WCrashed) (threads s)
      ∧ ∀ data, pc s = MReturn data → data = [].
Proof.
  apply (invalid_configuration_returns_empty (mkDataGenerator 4 (-1))
           (Counter 0)).
  simpl. lia.
Defined.

(** C9. For [num_threads <= 0], [generate_data] returns the empty list; in
    every run only the main thread moves and no worker thread exists, so
    [num_records // num_threads] is never evaluated and nothing raises. *)
Theorem no_threads_returns_empty {G : Type} `{RandomSource G}
    (d : DataGenerator) (g : G) :
  (num_threads d ≤ 0)%Z →
  returns (generate_data d g) []
  ∧ ∀ sched s,
      run sched (generate_data d g) = Some s →
      Forall (λ t, t = Main) sched
      ∧ threads s = []
      ∧ ∀ data, pc s = MReturn data → data = [].
Proof.
  intros Hw.
  assert (range_len (num_threads d) = 0) as H0 by (unfold range_len; lia).
  split.
  - exists (replicate 3 Main),
      {| self := d; rng := g; pc := MReturn [];
         threads := []; data_queue := [] |}.
    unfold generate_data. rewrite H0. split; reflexivity.
  - intros sched s Hr.
    destruct (run_main_only _ _ _ (main_inv_init d g) H0 Hr) as [Hm Ht].
    split_and!; [done..|]. intros data Hd.
    destruct (run_quiet g sched (generate_data d g) s (or_introl Hw)
                (main_inv_init d g) Hr
                (quiet_inv_init d g)) as [_ _ Hdr _].
    by rewrite Hd in Hdr.
Qed.

Lemma no_threads_returns_empty_witness :
  returns (generate_data (mkDataGenerator (-3) 100) (Counter 0)) []
  ∧ ∀ sched s,
      run sched (generate_data (mkDataGenerator (-3) 100) (Counter 0))
      = Some s →
      Forall (λ t, t = Main) sched
      ∧ threads s = []
      ∧ ∀ data, pc s = MReturn data → data = [].
Proof.
  apply (no_threads_returns_empty (mkDataGenerator (-3) 100) (Counter 0)).
  simpl. lia.
Defined.

(** C4. Every record [generate_data] returns has its name among the five
    literal names, its age in [20, 50], its city among the five literal
    cities and its salary in [30000, 100000]. *)
Theorem returned_records_in_range {G : Type} `{RandomSource G}
    `{!RandomSound G} (d : DataGenerator) (g : G) :
  length names = 5 ∧ length cities = 5
  ∧ ∀ data, returns (generate_data d g) data →
      Forall (λ r, name r ∈ names ∧ (20 ≤ age r ≤ 50)%Z
                   ∧ city r ∈ cities ∧ (30000 ≤ salary r ≤ 100000)%Z)
        data.
Proof.
  split_and!; [done..|]. intros data (sched & s & Hr & Hd).
  exact (returned_valid _ _ _ _ _ Hr Hd).
Qed.

Lemma returned_records_in_range_witness :
  length names = 5 ∧ length cities = 5
  ∧ ∀ data,
      returns (generate_data (mkDataGenerator 4 100) (Counter 0)) data →
      Forall (λ r, name r ∈ names ∧ (20 ≤ age r ≤ 50)%Z
                   ∧ city r ∈ cities ∧ (30000 ≤ salary r ≤ 100000)%Z)
        data.
Proof.
  exact (returned_records_in_range (G := counter)
           (mkDataGenerator 4 100) (Counter 0)).
Defined.

(** C5. With 8 workers and 800 records, under every interleaving: the call
    returns; the list returned is exactly the sequence of records put on the
    queue, in the order of the [put] calls (none lost, none twice, none
    altered); each of the 8 workers has put 100 of them; there are 800, and
    each one meets the field ranges. *)
Theorem concurrent_puts_all_returned {G : Type} `{RandomSource G}
    `{!RandomTotal G} `{!RandomSound G} (g : G) :
  (∃ data, returns (generate_data (mkDataGenerator 8 800) g) data)
  ∧ ∀ sched s data,
      run sched (generate_data (mkDataGenerator 8 800) g) = Some s →
      pc s = MReturn data →
      data = (puts sched (generate_data (mkDataGenerator 8 800) g)).*2
      ∧ length data = 800
      ∧ Forall valid_record data
      ∧ ∀ i, i < 8 →
          length (puts_by i
                    (puts sched (generate_data (mkDataGenerator 8 800) g)))
          = 100.
Proof.
  split; [apply can_return|]. intros sched s data Hr Hd.
  split_and!.
  - by eapply returned_puts.
  - by rewrite (returned_length _ _ _ _ _ Hr Hd).
  - by eapply returned_valid.
  - intros i Hi. by rewrite (returned_share _ _ _ _ _ i Hr Hd).
Qed.

Lemma concurrent_puts_all_returned_witness :
  (∃ data, returns (generate_data (mkDataGenerator 8 800) (Counter 0)) data)
  ∧ ∀ sched s data,
      run sched (generate_data (mkDataGenerator 8 800) (Counter 0)) = Some s →
      pc s = MReturn data →
      data
      = (puts sched (generate_data (mkDataGenerator 8 800) (Counter 0))).*2
      ∧ length data = 800
      ∧ Forall valid_record data
      ∧ ∀ i, i < 8 →
          length (puts_by i
                    (puts sched
                       (generate_data (mkDataGenerator 8 800) (Counter 0))))
          = 100.
Proof.
  exact (concurrent_puts_all_returned (G := counter) (Counter 0)).
Defined.

(** The calls of two workers that move in turns. *)
Example alternating_2x1_draws :
  draws alternating_2x1 (generate_data (mkDataGenerator 2 2) (Counter 0))
  = [(0, DChoice names); (1, DChoice names);
     (0, DRandint 20 50); (1, DRandint 20 50);
     (0, DChoice cities); (1, DChoice cities);
     (0, DRandint 30000 100000); (1, DRandint 30000 100000)].
Proof. vm_compute. reflexivity. Qed.

(** C7, as the spec states it, fails: two runs from the same state of the
    random module, with the same [num_threads] and [num_records], can
    return lists that are not permutations of each other. *)
Lemma interleaving_changes_records :
  ¬ permutation_equal_runs (mkDataGenerator 2 2) (Counter 0).
Proof.
  intros Hc.
  destruct (run_result _ _ _ _ sequential_2x1_run) as (s1 & Hr1 & Hp1).
  destruct (run_result _ _ _ _ alternating_2x1_run) as (s2 & Hr2 & Hp2).
  specialize (Hc _ _ _ _ _ _ Hr1 Hp1 Hr2 Hp2).
  assert (mkRecord "Alice" 21 "Chicago" 30003
          ∈ [mkRecord "Alice" 22 "Miami" 30006;
             mkRecord "Bob" 23 "New York" 30007]) as Hin.
  { rewrite <-Hc. apply list_elem_of_here. }
  apply elem_of_cons in Hin as [Hin|Hin]; [discriminate Hin|].
  apply elem_of_cons in Hin as [Hin|Hin]; [discriminate Hin|].
  by apply elem_of_nil in Hin.
Qed.

(** With a source that raises, two runs from the same state can even
    return lists of different lengths. *)
Example raising_first_alone_run :
  pc <$> run raising_first_alone
           (generate_data (mkDataGenerator 2 5) (Flaky 8 (Counter 0)))
  = Some (MReturn [mkRecord "Alice" 21 "Chicago" 30003;
                   mkRecord "Eve" 25 "Los Angeles" 30007]).
Proof. vm_compute. reflexivity. Qed.

Example raising_in_turns_run :
  pc <$> run raising_in_turns
           (generate_data (mkDataGenerator 2 5) (Flaky 8 (Counter 0)))
  = Some (MReturn [mkRecord "Alice" 21 "Chicago" 30006]).
Proof. vm_compute. reflexivity. Qed.

(** C7, amended. Two runs from the same state of the random module with the
    same [num_threads] and [num_records]: if the calls to the random module
    do not raise, the two lists returned have the same length; if
    [num_threads = 1], the two lists are the same, whether calls raise or
    not. (With two or more workers the records depend on how the workers'
    calls interleave.) *)
Theorem reruns_agree {G : Type} `{RandomSource G}
    (d : DataGenerator) (g : G) sched1 sched2 (s1 s2 : state G) data1 data2 :
  run sched1 (generate_data d g) = Some s1 → pc s1 = MReturn data1 →
  run sched2 (generate_data d g) = Some s2 → pc s2 = MReturn data2 →
  (RandomTotal G → length data1 = length data2)
  ∧ (num_threads d = 1%Z → data1 = data2).
Proof.
  intros Hr1 Hd1 Hr2 Hd2. split.
  - intros Htotal.
    by rewrite (returned_length _ _ _ _ _ Hr1 Hd1),
               (returned_length _ _ _ _ _ Hr2 Hd2).
  - intros H1.
    by rewrite (returned_alone _ _ _ _ _ H1 Hr1 Hd1),
               (returned_alone _ _ _ _ _ H1 Hr2 Hd2).
Qed.

Lemma reruns_agree_witness :
  ∃ s1 s2 data1 data2,
    run solo_late (generate_data (mkDataGenerator 1 2) (Counter 0)) = Some s1
    ∧ pc s1 = MReturn data1
    ∧ run solo_early (generate_data (mkDataGenerator 1 2) (Counter 0))
      = Some s2
    ∧ pc s2 = MReturn data2
    ∧ length data1 = length data2
    ∧ data1 = data2.
Proof.
  destruct (run_result _ _ _ _ solo_late_run) as (s1 & Hr1 & Hp1).
  destruct (run_result _ _ _ _ solo_early_run) as (s2 & Hr2 & Hp2).
  destruct (reruns_agree (mkDataGenerator 1 2) (Counter 0)
              solo_late solo_early s1 s2 _ _ Hr1 Hp1 Hr2 Hp2)
    as [Hlen Hsame].
  eexists s1, s2, _, _.
  split; [exact Hr1|]. split; [exact Hp1|].
  split; [exact Hr2|]. split; [exact Hp2|].
  split; [exact (Hlen counter_total)|exact (Hsame eq_refl)].
Defined.

(** C8. For every list of records, [write_to_csv] writes the header row and
    then exactly one row per record, in the order of the list; the cells of
    a row are the record's name, age, city and salary, in this order; no
    row raises. *)
Theorem write_to_csv_rows (rs : list Record_) :
  CSVWriter.write_to_csv (record_dict <$> rs)
  = (["name"; "age"; "city"; "salary"]
       :: ((λ r, [name r; pretty (age r); city r; pretty (salary r)]) <$> rs),
     true)
  ∧ length (CSVWriter.write_to_csv (record_dict <$> rs)).1 = S (length rs)
  ∧ ∀ i r, rs !! i = Some r →
      (CSVWriter.write_to_csv (record_dict <$> rs)).1 !! S i
      = Some [name r; pretty (age r); city r; pretty (salary r)].
Proof.
  unfold CSVWriter.write_to_csv.
  rewrite write_rows_records. simpl. split_and!.
  - done.
  - by rewrite length_fmap.
  - intros i r Hr. by rewrite list_lookup_fmap, Hr.
Qed.

Example write_to_csv_two :
  CSVWriter.write_to_csv
    (record_dict <$> [mkRecord "Alice" 21 "Chicago" 30003;
                      mkRecord "Eve" 25 "Los Angeles" 30007])
  = ([["name"; "age"; "city"; "salary"];
      ["Alice"; "21"; "Chicago"; "30003"];
      ["Eve"; "25"; "Los Angeles"; "30007"]], true).
Proof. vm_compute. reflexivity. Qed.

(** A row dict with a key outside the field names stops the writer. *)
Example write_to_csv_extra_key :
  CSVWriter.write_to_csv
    [record_dict (mkRecord "Alice" 21 "Chicago" 30003);
     <["email" := PyStr "bob@example.org"]>
       (record_dict (mkRecord "Bob" 23 "New York" 30007))]
  = ([["name"; "age"; "city"; "salary"];
      ["Alice"; "21"; "Chicago"; "30003"]], false).
Proof. vm_compute. reflexivity. Qed.

(** [main]: four threads, a hundred records, then the sink. Whatever the
    interleaving, the file gets the header and one row per record returned:
    101 rows. *)
Lemma main_rows {G : Type} `{RandomSource G} `{!RandomTotal G} (g : G) data :
  returns (generate_data (mkDataGenerator 4 100) g) data →
  CSVWriter.write_to_csv (record_dict <$> data)
  = (CSVWriter.fieldnames :: (CSVWriter.cells <$> data), true)
  ∧ length (CSVWriter.write_to_csv (record_dict <$> data)).1 = 101.
Proof.
  intros (sched & s & Hr & Hd). unfold CSVWriter.write_to_csv.
  rewrite write_rows_records. split; [done|]. simpl.
  by rewrite length_fmap, (returned_length _ _ _ _ _ Hr Hd).
Qed.

(** C10. [generate_data] never assigns to [self]: in every state of every
    run [num_threads] and [num_records] are as constructed. A second call on
    the same object starts from an empty queue and no threads; it returns
    only records put during that call, and its result has the same length as
    the first call's, [num_threads * (num_records // num_threads)] when both
    are positive and 0 otherwise. *)
Theorem generate_data_frame {G : Type} `{RandomSource G} `{!RandomTotal G}
    (d : DataGenerator) (g : G) :
  (∀ sched s, run sched (generate_data d g) = Some s → self s = d)
  ∧ ∀ sched1 s1 data1,
      run sched1 (generate_data d g) = Some s1 → pc s1 = MReturn data1 →
      length data1 = range_len (num_threads d) * loop_len d
      ∧ data_queue (generate_data (self s1) (rng s1)) = []
      ∧ threads (generate_data (self s1) (rng s1)) = []
      ∧ ∀ sched2 s2 data2,
          run sched2 (generate_data (self s1) (rng s1)) = Some s2 →
          pc s2 = MReturn data2 →
          self s2 = d
          ∧ length data2 = range_len (num_threads d) * loop_len d
          ∧ data2
            = (puts sched2 (generate_data (self s1) (rng s1))).*2.
Proof.
  split.
  - intros sched s Hr. by rewrite (run_self _ _ _ Hr).
  - intros sched1 s1 data1 Hr1 Hd1.
    pose proof (run_self _ _ _ Hr1) as Hs1. simpl in Hs1.
    split_and!; [by eapply returned_length|done|done|].
    rewrite Hs1. intros sched2 s2 data2 Hr2 Hd2. split_and!.
    + by rewrite (run_self _ _ _ Hr2).
    + by eapply returned_length.
    + by eapply returned_puts.
Qed.

Lemma generate_data_frame_witness :
  (∀ sched s,
     run sched (generate_data (mkDataGenerator 4 101) (Counter 0)) = Some s →
     self s = mkDataGenerator 4 101)
  ∧ ∀ sched1 s1 data1,
      run sched1 (generate_data (mkDataGenerator 4 101) (Counter 0))
      = Some s1 →
      pc s1 = MReturn data1 →
      length data1 = 100
      ∧ data_queue (generate_data (self s1) (rng s1)) = []
      ∧ threads (generate_data (self s1) (rng s1)) = []
      ∧ ∀ sched2 s2 data2,
          run sched2 (generate_data (self s1) (rng s1)) = Some s2 →
          pc s2 = MReturn data2 →
          self s2 = mkDataGenerator 4 101
          ∧ length data2 = 100
          ∧ data2
            = (puts sched2 (generate_data (self s1) (rng s1))).*2.
Proof.
  exact (generate_data_frame (G := counter)
           (mkDataGenerator 4 101) (Counter 0)).
Defined.

(** ** Further properties of [generate_data] *)

Section MoreTheory.
Context {G : Type} `{RandomSource G}.
Implicit Types (s : state G) (d : DataGenerator) (g : G).

Lemma measure_entry d g : measure (generate_data d g) = run_bound d.
Proof. unfold measure, run_bound. simpl. lia. Qed.

(** A worker's action, whatever the source does: it never gains records to
    put, and loses one exactly when it puts one or dies. *)
Lemma worker_step_any i s s' :
  main_inv s → _generate_worker i s = Some s' →
  ∃ w w', threads s !! i = Some w
    ∧ threads s' = <[i := w']> (threads s)
    ∧ pc s' = pc s
    ∧ data_queue s' = data_queue s ++ (put_event (Worker i) s).*2
    ∧ rem (loop_len (self s)) w' + length (put_event (Worker i) s)
      ≤ rem (loop_len (self s)) w.
Proof.
  intros Hi Hs. change (sched_step (Worker i) s = Some s') in Hs.
  step_cases Hs;
    match goal with Hl : threads s !! i = Some _ |- _ =>
      pose proof (floordiv_spawned _ _ _ Hi Hl) as Hfd;
      unfold put_event; rewrite ?Hl end;
    try congruence;
    (eexists _, _; split_and!; [done|done|done|..]);
    simpl; rewrite ?app_nil_r; try done; try lia;
    unfold loop_len;
    match goal with Hf : floordiv _ _ = Some ?z |- _ =>
      is_var z; rewrite Hfd in Hf
    end;
    simplify_eq; rewrite Hfd; lia.
Qed.

Lemma step_pending_le t s s' :
  main_inv s → sched_step t s = Some s' → pending s' ≤ pending s.
Proof.
  intros Hi Hs. unfold pending. rewrite (step_self _ _ _ Hs).
  destruct t as [|i].
  - step_cases Hs;
      repeat match goal with Hp : pc s = _ |- _ => rewrite Hp; clear Hp end;
      repeat match goal with Hp : data_queue s = _ |- _ =>
               rewrite Hp; clear Hp end;
      simpl; rewrite ?length_app, ?sum_list_snoc; simpl; lia.
  - destruct (worker_step_any _ _ _ Hi Hs)
      as (w & w' & Hw & -> & -> & -> & Hrem).
    pose proof (sum_list_insert (rem (loop_len (self s))) _ _ _ w' Hw).
    rewrite length_app, length_fmap. lia.
Qed.

Lemma run_pending_le sched s s' :
  main_inv s → run sched s = Some s' → pending s' ≤ pending s.
Proof.
  revert s. induction sched as [|t sched IH]; intros s Hi Hr; simplify_eq/=.
  - done.
  - destruct (sched_step t s) as [s1|] eqn:Hs; [|done].
    etrans; [apply (IH s1)|]; eauto using step_main_inv, step_pending_le.
Qed.

Lemma returned_length_le sched d g s data :
  run sched (generate_data d g) = Some s → pc s = MReturn data →
  length data ≤ range_len (num_threads d) * loop_len d.
Proof.
  intros Hr Hd.
  pose proof (run_pending_le _ _ _ (main_inv_init d g) Hr) as Hp.
  unfold pending in Hp. rewrite (run_self _ _ _ Hr), Hd in Hp.
  simpl in Hp. lia.
Qed.

(** Once the main thread is past its [join] loop no worker can move. *)
Lemma joined_no_worker_step s i :
  main_inv s → (∃ data, pc s = MDrain data ∨ pc s = MReturn data) →
  sched_step (Worker i) s = None.
Proof.
  intros [_ Hj _] [data Hp]. simpl. unfold _generate_worker.
  destruct (threads s !! i) as [w|] eqn:Hw; [|done].
  assert (finished w = true) as Hf.
  { destruct Hp as [Hp|Hp]; rewrite Hp in Hj;
      exact (Forall_lookup_1 _ _ _ _ Hj Hw). }
  by destruct w.
Qed.

Section MoreTotal.
Context `{!RandomTotal G}.

Lemma step_drawn t s s' :
  main_inv s → sched_step t s = Some s' →
  drawn s' = drawn s + length (draw_event t s).
Proof.
  intros Hi Hs. unfold drawn. destruct t as [|i].
  - step_cases Hs;
      repeat match goal with Hp : pc s = _ |- _ => rewrite Hp; clear Hp end;
      repeat match goal with Hp : data_queue s = _ |- _ =>
               rewrite Hp; clear Hp end;
      simpl; rewrite ?length_app, ?sum_list_snoc; simpl; lia.
  - unfold draw_event.
    step_cases Hs;
      try match goal with
          | Hc : randint ?a ?b ?g = (None, _) |- _ =>
              let Hx := fresh in
              assert (is_Some (randint a b g).1) as Hx
                by (apply randint_total; lia);
              rewrite Hc in Hx; by destruct Hx
          | Hc : choice ?l ?g = (None, _) |- _ =>
              let Hx := fresh in
              assert (is_Some (choice l g).1) as Hx
                by (by apply choice_total);
              rewrite Hc in Hx; by destruct Hx
          end;
      match goal with Hl : threads s !! i = Some ?w |- _ =>
        match goal with |- context [<[_ := ?w']> _] =>
          pose proof (sum_list_insert inflight _ _ _ w' Hl) as Hsum
        end; rewrite ?Hl
      end;
      simpl in *; rewrite ?length_app; simpl; lia.
Qed.

Lemma run_drawn sched s s' :
  main_inv s → run sched s = Some s' →
  drawn s' = drawn s + length (draws sched s).
Proof.
  revert s. induction sched as [|t sched IH]; intros s Hi Hr; simplify_eq/=.
  - lia.
  - destruct (sched_step t s) as [s1|] eqn:Hs; [|done].
    rewrite (IH s1), (step_drawn _ _ _ Hi Hs), length_app;
      eauto using step_main_inv. lia.
Qed.

End MoreTotal.

End MoreTheory.

(** The full share of all workers, and the longest run, in Python's terms:
    [range] of a negative number is empty, so the number of workers is
    [max(num_threads, 0)] and each loop has [max(num_records // num_threads,
    0)] iterations. *)
Lemma to_nat_max (x : Z) : Z.of_nat (Z.to_nat x) = Z.max 0 x.
Proof. lia. Qed.

Lemma full_share_Z (d : DataGenerator) :
  Z.of_nat (range_len (num_threads d) * loop_len d)
  = (Z.max 0 (num_threads d)
     * Z.max 0 (num_records d `div` num_threads d))%Z.
Proof.
  unfold loop_len, floordiv, range_len. rewrite Nat2Z.inj_mul, to_nat_max.
  case_decide as Hz; [rewrite Hz; simpl; lia|].
  by rewrite to_nat_max.
Qed.

Lemma run_bound_Z (d : DataGenerator) :
  Z.of_nat (run_bound d)
  = (3 + Z.max 0 (num_threads d)
         * (6 * Z.max 0 (num_records d `div` num_threads d) + 4))%Z.
Proof.
  unfold run_bound. pose proof (full_share_Z d) as Hf.
  rewrite Nat2Z.inj_mul in Hf.
  rewrite Nat2Z.inj_add, Nat2Z.inj_mul, Nat2Z.inj_add, Nat2Z.inj_mul.
  unfold range_len in *. rewrite to_nat_max in *. simpl Z.of_nat. nia.
Qed.

(** X1. [generate_data] always comes to its [return], for every
    configuration and every behaviour of the random module. With [T =
    max(num_threads, 0)] workers and [Q = max(num_records // num_threads, 0)]
    iterations for each, a run has at most [3 + T * (6 * Q + 4)] actions
    (3 when [num_threads <= 0]); a state that is not at [return] always has
    a thread that can move; every run can be continued up to [return]. *)
Theorem generate_data_terminates {G : Type} `{RandomSource G}
    (d : DataGenerator) (g : G) sched (s : state G) :
  run sched (generate_data d g) = Some s →
  (Z.of_nat (length sched)
   ≤ 3 + Z.max 0 (num_threads d)
         * (6 * Z.max 0 (num_records d `div` num_threads d) + 4))%Z
  ∧ ((∃ data, pc s = MReturn data) ∨ ∃ t s', sched_step t s = Some s')
  ∧ ∃ data, returns s data.
Proof.
  intros Hr. split_and!.
  - pose proof (run_bounded _ _ _ Hr) as Hb.
    rewrite measure_entry in Hb. rewrite <-run_bound_Z. lia.
  - apply progress.
  - apply can_return.
Qed.

(** Four threads asked for -1 records: the bound is 19, and the run that
    starts, runs and joins them one by one has 19 actions. *)
Lemma generate_data_terminates_witness :
  ∃ s,
    run (replicate 5 Main ++ one_by_one 4 2 ++ replicate 6 Main)
      (generate_data (mkDataGenerator 4 (-1)) (Counter 0))
    = Some s
    ∧ (Z.of_nat (length (replicate 5 Main ++ one_by_one 4 2
                         ++ replicate 6 Main))
       ≤ 3 + Z.max 0 4 * (6 * Z.max 0 (-1 `div` 4) + 4))%Z
    ∧ ((∃ data, pc s = MReturn data) ∨ ∃ t s', sched_step t s = Some s')
    ∧ ∃ data, returns s data.
Proof.
  destruct (run_result _ _ _ _ negative_records_run) as (s & Hr & _).
  exists s. split; [exact Hr|].
  exact (generate_data_terminates (mkDataGenerator 4 (-1)) (Counter 0)
           _ s Hr).
Defined.

(** X2. The [join] loop is a barrier. At no time are there more worker
    threads than [num_threads]; when the main thread drains the queue or has
    returned, all [num_threads] workers have been started, every one has
    finished, and no worker can move any more: nothing is put on the queue
    while it is drained. *)
Theorem drain_after_join {G : Type} `{RandomSource G}
    (d : DataGenerator) (g : G) sched (s : state G) :
  run sched (generate_data d g) = Some s →
  length (threads s) ≤ range_len (num_threads d)
  ∧ ((∃ data, pc s = MDrain data ∨ pc s = MReturn data) →
     length (threads s) = range_len (num_threads d)
     ∧ Forall (λ w, finished w = true) (threads s)
     ∧ ∀ i, sched_step (Worker i) s = None).
Proof.
  intros Hr.
  pose proof (run_main_inv _ _ _ Hr (main_inv_init d g)) as Hi.
  pose proof Hi as [Hn Hj _]. rewrite (run_self _ _ _ Hr) in Hn.
  simpl in Hn. split; [lia|]. intros [data Hp]. split_and!.
  - destruct Hp as [Hp|Hp]; rewrite Hp in Hn; simpl in Hn; lia.
  - destruct Hp as [Hp|Hp]; by rewrite Hp in Hj.
  - intros i. apply joined_no_worker_step; eauto.
Qed.

Lemma drain_after_join_witness :
  ∃ s,
    run sequential_2x1 (generate_data (mkDataGenerator 2 2) (Counter 0))
    = Some s
    ∧ length (threads s) ≤ range_len 2
    ∧ ((∃ data, pc s = MDrain data ∨ pc s = MReturn data) →
       length (threads s) = range_len 2
       ∧ Forall (λ w, finished w = true) (threads s)
       ∧ ∀ i, sched_step (Worker i) s = None).
Proof.
  destruct (run_result _ _ _ _ sequential_2x1_run) as (s & Hr & _).
  exists s. split; [exact Hr|].
  exact (drain_after_join (mkDataGenerator 2 2) (Counter 0)
           sequential_2x1 s Hr).
Defined.

(** X3. [generate_data] never returns more records than it was asked for,
    whatever the random module does (also when calls raise and workers
    die): for [num_threads >= 1] and [num_records >= 0] the list returned has
    at most [(num_records // num_threads) * num_threads] records, so at most
    [num_records]. *)
Theorem never_more_than_asked {G : Type} `{RandomSource G}
    (d : DataGenerator) (g : G) :
  (1 ≤ num_threads d)%Z → (0 ≤ num_records d)%Z →
  (∃ data, returns (generate_data d g) data)
  ∧ ∀ data, returns (generate_data d g) data →
      (Z.of_nat (length data)
       ≤ num_records d `div` num_threads d * num_threads d)%Z
      ∧ (Z.of_nat (length data) ≤ num_records d)%Z.
Proof.
  intros Hw Hn. split; [apply can_return|].
  intros data (sched & s & Hr & Hd).
  pose proof (returned_length_le _ _ _ _ _ Hr Hd) as Hle.
  rewrite (loop_len_pos _ Hw) in Hle. unfold range_len in Hle.
  assert (0 ≤ num_records d `div` num_threads d)%Z
    by (apply Z.div_pos; lia).
  pose proof (Z.mul_div_le (num_records d) (num_threads d)). nia.
Qed.

Lemma never_more_than_asked_witness :
  (∃ data,
     returns (generate_data (mkDataGenerator 2 5) (Flaky 8 (Counter 0))) data)
  ∧ ∀ data,
      returns (generate_data (mkDataGenerator 2 5) (Flaky 8 (Counter 0)))
        data →
      (Z.of_nat (length data) ≤ 4)%Z ∧ (Z.of_nat (length data) ≤ 5)%Z.
Proof.
  apply (never_more_than_asked (mkDataGenerator 2 5) (Flaky 8 (Counter 0)));
    simpl; lia.
Defined.

(** X4. How many records are lost to the integer division, when the random
    module does not raise and [num_threads >= 1], [num_records >= 0]: the
    list returned is short of [num_records] by [num_records % num_threads];
    it has all [num_records] records exactly when [num_threads] divides
    [num_records]; it is empty exactly when [num_records < num_threads]. *)
Theorem dropped_records {G : Type} `{RandomSource G} `{!RandomTotal G}
    (d : DataGenerator) (g : G) :
  (1 ≤ num_threads d)%Z → (0 ≤ num_records d)%Z →
  (∃ data, returns (generate_data d g) data)
  ∧ ∀ data, returns (generate_data d g) data →
      (num_records d - Z.of_nat (length data)
       = num_records d `mod` num_threads d)%Z
      ∧ (Z.of_nat (length data) = num_records d
         ↔ (num_records d `mod` num_threads d = 0)%Z)
      ∧ (data = [] ↔ (num_records d < num_threads d)%Z).
Proof.
  intros Hw Hn. split; [apply can_return|].
  intros data (sched & s & Hr & Hd).
  pose proof (returned_length _ _ _ _ _ Hr Hd) as Hl.
  rewrite (loop_len_pos _ Hw) in Hl. unfold range_len in Hl.
  assert (0 ≤ num_records d `div` num_threads d)%Z as Hq
    by (apply Z.div_pos; lia).
  assert (Z.of_nat (length data)
          = (num_threads d * (num_records d `div` num_threads d))%Z) as Hz
    by (rewrite Hl, Nat2Z.inj_mul, !Z2Nat.id; lia).
  pose proof (Z.div_mod (num_records d) (num_threads d) ltac:(lia)) as Hdm.
  split_and!; [lia|lia|].
  split.
  - intros ->. simpl in Hz.
    destruct (Z.lt_ge_cases (num_records d) (num_threads d)) as [|Hge];
      [done|].
    assert (1 ≤ num_records d `div` num_threads d)%Z
      by (apply Z.div_le_lower_bound; lia).
    nia.
  - intros Hlt. rewrite Z.div_small in Hz by lia.
    destruct data; [done|]. simpl in Hz. lia.
Qed.

Lemma dropped_records_witness :
  (∃ data, returns (generate_data (mkDataGenerator 4 101) (Counter 0)) data)
  ∧ ∀ data,
      returns (generate_data (mkDataGenerator 4 101) (Counter 0)) data →
      (101 - Z.of_nat (length data) = 1)%Z
      ∧ (Z.of_nat (length data) = 101%Z ↔ (1 = 0)%Z)
      ∧ (data = [] ↔ (101 < 4)%Z).
Proof.
  apply (dropped_records (mkDataGenerator 4 101) (Counter 0)); simpl; lia.
Defined.

(** X5. When the calls to the random module do not raise, no worker thread
    ever ends by an exception, for any [num_threads] and [num_records]: in
    particular [num_records // num_threads] never divides by zero, because a
    worker exists only when [num_threads >= 1]. *)
Theorem no_worker_dies {G : Type} `{RandomSource G} `{!RandomTotal G}
    (d : DataGenerator) (g : G) sched (s : state G) :
  run sched (generate_data d g) = Some s →
  Forall (λ w, w ≠ WCrashed) (threads s).
Proof.
  intros Hr. by eapply run_alive; [apply main_inv_init|done|].
Qed.

Lemma no_worker_dies_witness :
  ∃ s,
    run alternating_2x1 (generate_data (mkDataGenerator 2 2) (Counter 0))
    = Some s
    ∧ Forall (λ w, w ≠ WCrashed) (threads s).
Proof.
  destruct (run_result _ _ _ _ alternating_2x1_run) as (s & Hr & _).
  exists s. split; [exact Hr|].
  exact (no_worker_dies (mkDataGenerator 2 2) (Counter 0)
           alternating_2x1 s Hr).
Defined.

(** The loop of a single worker that dies while building its third
    record. *)
Example loop_alone_failing :
  loop_alone 5 (Flaky 8 (Counter 0))
  = [mkRecord "Alice" 21 "Chicago" 30003;
     mkRecord "Eve" 25 "Los Angeles" 30007].
Proof. vm_compute. reflexivity. Qed.

(** X6. With [num_threads = 1] the threads change nothing: under every
    schedule [generate_data] returns exactly the records that the loop of
    [_generate_worker], run on its own for [num_records] iterations, builds
    one after the other (up to the first call that raises, if one does). *)
Theorem single_worker_sequential {G : Type} `{RandomSource G}
    (d : DataGenerator) (g : G) :
  num_threads d = 1%Z →
  returns (generate_data d g) (loop_alone (Z.to_nat (num_records d)) g)
  ∧ ∀ data, returns (generate_data d g) data →
      data = loop_alone (Z.to_nat (num_records d)) g.
Proof.
  intros H1.
  assert (loop_len d = Z.to_nat (num_records d)) as Hq.
  { rewrite loop_len_pos by lia. by rewrite H1, Z.div_1_r. }
  assert (∀ data, returns (generate_data d g) data →
            data = loop_alone (Z.to_nat (num_records d)) g) as Hall.
  { intros data (sched & s & Hr & Hd).
    by rewrite (returned_alone _ _ _ _ _ H1 Hr Hd), Hq. }
  split; [|done].
  destruct (can_return (generate_data d g)) as [data Hret].
  by rewrite <-(Hall _ Hret).
Qed.

Lemma single_worker_sequential_witness :
  returns (generate_data (mkDataGenerator 1 5) (Flaky 8 (Counter 0)))
    (loop_alone 5 (Flaky 8 (Counter 0)))
  ∧ ∀ data,
      returns (generate_data (mkDataGenerator 1 5) (Flaky 8 (Counter 0))) data →
      data = loop_alone 5 (Flaky 8 (Counter 0)).
Proof.
  exact (single_worker_sequential (mkDataGenerator 1 5) (Flaky 8 (Counter 0))
           eq_refl).
Defined.

Lemma inflight_finished ws :
  Forall (λ w, finished w = true) ws → sum_list_with inflight ws = 0.
Proof.
  induction 1 as [|w ws Hw _ IH]; simpl; [done|].
  rewrite IH. by destruct w.
Qed.

(** X7. When the calls to the random module do not raise, a complete run of
    [generate_data] makes exactly four calls to it for each record it
    returns, and none besides. *)
Theorem four_calls_per_record {G : Type} `{RandomSource G} `{!RandomTotal G}
    (d : DataGenerator) (g : G) sched (s : state G) data :
  run sched (generate_data d g) = Some s → pc s = MReturn data →
  length (draws sched (generate_data d g)) = 4 * length data.
Proof.
  intros Hr Hd.
  pose proof (run_main_inv _ _ _ Hr (main_inv_init d g)) as [_ Hj Hq].
  pose proof (run_drawn _ _ _ (main_inv_init d g) Hr) as Hdr.
  unfold drawn in Hdr. rewrite Hd in Hdr, Hj. simpl in Hdr, Hj.
  rewrite (Hq _ Hd), (inflight_finished _ Hj) in Hdr. simpl in Hdr. lia.
Qed.

Lemma four_calls_per_record_witness :
  ∃ s data,
    run alternating_2x1 (generate_data (mkDataGenerator 2 2) (Counter 0))
    = Some s
    ∧ pc s = MReturn data
    ∧ length (draws alternating_2x1
                (generate_data (mkDataGenerator 2 2) (Counter 0)))
      = 4 * length data.
Proof.
  destruct (run_result _ _ _ _ alternating_2x1_run) as (s & Hr & Hp).
  eexists s, _. split; [exact Hr|]. split; [exact Hp|].
  exact (four_calls_per_record (mkDataGenerator 2 2) (Counter 0)
           alternating_2x1 s _ Hr Hp).
Defined.

(** X8. Equal shares. When the calls to the random module do not raise and
    [generate_data] returns, each of its [max(num_threads, 0)] workers has put
    exactly [max(num_records // num_threads, 0)] records on the queue, for
    every configuration and schedule, and nothing on the queue comes from
    anywhere else. *)
Theorem equal_shares {G : Type} `{RandomSource G} `{!RandomTotal G}
    (d : DataGenerator) (g : G) sched (s : state G) data :
  run sched (generate_data d g) = Some s → pc s = MReturn data →
  (∀ i, (Z.of_nat i < Z.max 0 (num_threads d))%Z →
     Z.of_nat (length (puts_by i (puts sched (generate_data d g))))
     = Z.max 0 (num_records d `div` num_threads d))
  ∧ (∀ i, (Z.max 0 (num_threads d) ≤ Z.of_nat i)%Z →
       puts_by i (puts sched (generate_data d g)) = []).
Proof.
  intros Hr Hd. split.
  - intros i Hi.
    rewrite (returned_share _ _ _ _ _ i Hr Hd) by (unfold range_len; lia).
    rewrite loop_len_pos by lia. unfold range_len. apply to_nat_max.
  - intros i Hi.
    pose proof (run_main_inv _ _ _ Hr (main_inv_init d g)) as [Hn _ _].
    assert (share_inv [] (generate_data d g)) as Hsh0 by (by split).
    pose proof (run_share _ _ _ _ (main_inv_init d g) Hr Hsh0) as [_ Hb].
    rewrite (run_self _ _ _ Hr), Hd in Hn. simpl in Hn, Hb.
    eapply puts_by_fresh; [exact Hb|]. unfold range_len in Hn. lia.
Qed.

(** Four threads asked for -1 records: [-1 // 4] is -1, and each of the
    four workers puts 0 records. *)
Lemma equal_shares_witness :
  ∃ s data,
    run (replicate 5 Main ++ one_by_one 4 2 ++ replicate 6 Main)
      (generate_data (mkDataGenerator 4 (-1)) (Counter 0))
    = Some s
    ∧ pc s = MReturn data
    ∧ (∀ i, (Z.of_nat i < Z.max 0 4)%Z →
         Z.of_nat
           (length
              (puts_by i
                 (puts (replicate 5 Main ++ one_by_one 4 2
                        ++ replicate 6 Main)
                    (generate_data (mkDataGenerator 4 (-1)) (Counter 0)))))
         = Z.max 0 (-1 `div` 4))
    ∧ (∀ i, (Z.max 0 4 ≤ Z.of_nat i)%Z →
         puts_by i
           (puts (replicate 5 Main ++ one_by_one 4 2 ++ replicate 6 Main)
              (generate_data (mkDataGenerator 4 (-1)) (Counter 0)))
         = []).
Proof.
  destruct (run_result _ _ _ _ negative_records_run) as (s & Hr & [= Hp _]).
  eexists s, _. split; [exact Hr|]. split; [exact Hp|].
  exact (equal_shares (mkDataGenerator 4 (-1)) (Counter 0) _ s _ Hr Hp).
Defined.

(** ** Further properties of [write_to_csv] and [main] *)

Lemma dict_to_list_cases (row : gmap string pyval) :
  CSVWriter.dict_to_list CSVWriter.fieldnames row
  = if decide (well_keyed row) then Some (row_cells row) else None.
Proof. reflexivity. Qed.

Lemma row_cells_length row : length (row_cells row) = 4.
Proof. unfold row_cells. by rewrite length_fmap. Qed.

Lemma write_rows_any (data : list (gmap string pyval)) :
  Forall (λ row, length row = 4)
    (CSVWriter.write_rows CSVWriter.fieldnames data).1
  ∧ length (CSVWriter.write_rows CSVWriter.fieldnames data).1 ≤ length data
  ∧ ((CSVWriter.write_rows CSVWriter.fieldnames data).2 = true
     ↔ Forall well_keyed data)
  ∧ ((CSVWriter.write_rows CSVWriter.fieldnames data).2 = true →
     (CSVWriter.write_rows CSVWriter.fieldnames data).1 = row_cells <$> data).
Proof.
  induction data as [|row data (IH1 & IH2 & IH3 & IH4)].
  - simpl. split_and!; [done|done| |done]. split; [done|by intros _].
  - cbn [CSVWriter.write_rows]. rewrite dict_to_list_cases.
    case_decide as Hk.
    + destruct (CSVWriter.write_rows CSVWriter.fieldnames data)
        as [rows ok] eqn:Hw.
      simpl in *. split_and!.
      * constructor; [apply row_cells_length|done].
      * lia.
      * rewrite IH3. split; [by constructor|by inversion 1].
      * intros Hok. by rewrite (IH4 Hok).
    + simpl. split_and!; [done|lia| |done].
      split; [done|]. by inversion 1.
Qed.

(** X9. [write_to_csv] on any list of row dicts: the first row written is
    always the header; every row written has four cells; at most one row
    per dict follows the header; the writer gets through the whole list
    exactly when no dict has a key outside the four field names (a missing
    key never stops it), and then it has written one row per dict, in
    order, with an empty cell for each missing key. *)
Theorem write_to_csv_any (data : list (gmap string pyval)) :
  head (CSVWriter.write_to_csv data).1 = Some ["name"; "age"; "city"; "salary"]
  ∧ Forall (λ row, length row = 4) (CSVWriter.write_to_csv data).1
  ∧ length (CSVWriter.write_to_csv data).1 ≤ S (length data)
  ∧ ((CSVWriter.write_to_csv data).2 = true ↔ Forall well_keyed data)
  ∧ ((CSVWriter.write_to_csv data).2 = true →
     (CSVWriter.write_to_csv data).1
     = ["name"; "age"; "city"; "salary"] :: (row_cells <$> data)).
Proof.
  destruct (write_rows_any data) as (H1 & H2 & H3 & H4).
  unfold CSVWriter.write_to_csv.
  destruct (CSVWriter.write_rows CSVWriter.fieldnames data) as [rows ok].
  simpl in *. split_and!; [done| |lia|done|].
  - by constructor.
  - intros Hok. by rewrite (H4 Hok).
Qed.

Lemma write_rows_app_bad good bad rest :
  Forall well_keyed good → ¬ well_keyed bad →
  CSVWriter.write_rows CSVWriter.fieldnames (good ++ bad :: rest)
  = (row_cells <$> good, false).
Proof.
  intros Hg Hb. induction Hg as [|row good Hrow _ IH].
  - cbn [app CSVWriter.write_rows]. rewrite dict_to_list_cases.
    by rewrite decide_False.
  - cbn [app CSVWriter.write_rows]. rewrite dict_to_list_cases.
    rewrite decide_True by done. by rewrite IH.
Qed.

Lemma record_dict_well_keyed r : well_keyed (record_dict r).
Proof.
  unfold well_keyed, record_dict, CSVWriter.fieldnames.
  rewrite !dom_insert_L. set_solver.
Qed.

(** X10. A row dict with a key outside the field names makes the writer
    raise at that row: the header and the rows of the dicts before it are in
    the file, the row of that dict and of every dict after it are not. *)
Theorem write_to_csv_stops_at_extra_key
    (good : list (gmap string pyval)) (bad : gmap string pyval)
    (rest : list (gmap string pyval)) :
  Forall well_keyed good → ¬ well_keyed bad →
  CSVWriter.write_to_csv (good ++ bad :: rest)
  = (["name"; "age"; "city"; "salary"] :: (row_cells <$> good), false).
Proof.
  intros Hg Hb. unfold CSVWriter.write_to_csv.
  by rewrite write_rows_app_bad.
Qed.

Lemma extra_key_not_well_keyed r :
  ¬ well_keyed (<["email" := PyStr "bob@example.org"]> (record_dict r)).
Proof.
  unfold well_keyed, CSVWriter.fieldnames. intros Hk.
  assert ("email" ∈ dom (<["email" := PyStr "bob@example.org"]>
                           (record_dict r))) as Hin
    by (rewrite dom_insert_L; apply elem_of_union; left;
        by apply elem_of_singleton).
  apply Hk, elem_of_list_to_set in Hin.
  repeat (apply elem_of_cons in Hin as [Hin|Hin]; [discriminate Hin|]).
  by apply elem_of_nil in Hin.
Qed.

Lemma write_to_csv_stops_at_extra_key_witness :
  CSVWriter.write_to_csv
    ([record_dict (mkRecord "Alice" 21 "Chicago" 30003)]
     ++ <["email" := PyStr "bob@example.org"]>
          (record_dict (mkRecord "Bob" 23 "New York" 30007))
        :: [record_dict (mkRecord "Eve" 25 "Los Angeles" 30007)])
  = (["name"; "age"; "city"; "salary"]
       :: (row_cells
             <$> [record_dict (mkRecord "Alice" 21 "Chicago" 30003)]),
     false).
Proof.
  apply write_to_csv_stops_at_extra_key.
  - constructor; [apply record_dict_well_keyed|constructor].
  - apply extra_key_not_well_keyed.
Defined.

(** X11. A missing key is not an error: for a generated record whose dict
    lacks one of the four keys, the writer still writes the row, with an
    empty cell in that key's column and the other three cells unchanged. *)
Theorem missing_key_blank_cell (r : Record_) (i : nat) (key : string) :
  CSVWriter.fieldnames !! i = Some key →
  CSVWriter.dict_to_list CSVWriter.fieldnames (delete key (record_dict r))
  = Some (<[i := EmptyString]> (CSVWriter.cells r)).
Proof.
  intros Hi. rewrite dict_to_list_cases.
  assert (well_keyed (delete key (record_dict r))) as Hk.
  { pose proof (record_dict_well_keyed r) as Hr. unfold well_keyed in *.
    rewrite dom_delete_L. intros x Hx. apply Hr.
    by apply elem_of_difference in Hx as [Hx _]. }
  rewrite decide_True by done. f_equal.
  unfold row_cells, CSVWriter.cells, CSVWriter.fieldnames, record_dict in *.
  destruct i as [|[|[|[|i]]]]; simplify_eq/=; by simplify_map_eq.
Qed.

Lemma missing_key_blank_cell_witness :
  CSVWriter.dict_to_list CSVWriter.fieldnames
    (delete "city" (record_dict (mkRecord "Alice" 21 "Chicago" 30003)))
  = Some (<[2 := EmptyString]>
            (CSVWriter.cells (mkRecord "Alice" 21 "Chicago" 30003))).
Proof.
  exact (missing_key_blank_cell (mkRecord "Alice" 21 "Chicago" 30003)
           2 "city" eq_refl).
Defined.

Lemma cells_inj r1 r2 : CSVWriter.cells r1 = CSVWriter.cells r2 → r1 = r2.
Proof.
  destruct r1 as [n1 a1 c1 s1], r2 as [n2 a2 c2 s2].
  unfold CSVWriter.cells. simpl. intros [= -> Ha -> Hs].
  apply pretty_Z_inj in Ha. apply pretty_Z_inj in Hs. by subst.
Qed.

(** X12. The rows keep everything: two lists of records for which
    [write_to_csv] writes the same rows are the same list. Each record can
    be read back from the cells of its row. *)
Theorem rows_determine_records (rs1 rs2 : list Record_) :
  CSVWriter.write_to_csv (record_dict <$> rs1)
  = CSVWriter.write_to_csv (record_dict <$> rs2) →
  rs1 = rs2.
Proof.
  unfold CSVWriter.write_to_csv. rewrite !write_rows_records.
  intros [= Heq]. revert rs2 Heq.
  induction rs1 as [|r1 rs1 IH]; intros [|r2 rs2] Heq;
    [done|discriminate Heq|discriminate Heq|].
  rewrite !fmap_cons in Heq. injection Heq as Hn Ha Hc Hs Hrest.
  f_equal; [|by apply IH].
  apply cells_inj. unfold CSVWriter.cells. by rewrite Hn, Ha, Hc, Hs.
Qed.

Lemma rows_determine_records_witness :
  [mkRecord "Alice" 21 "Chicago" 30003; mkRecord "Eve" 25 "Los Angeles" 30007]
  = [mkRecord "Alice" 21 "Chicago" 30003;
     mkRecord "Eve" 25 "Los Angeles" 30007].
Proof.
  exact (rows_determine_records
           [mkRecord "Alice" 21 "Chicago" 30003;
            mkRecord "Eve" 25 "Los Angeles" 30007]
           [mkRecord "Alice" 21 "Chicago" 30003;
            mkRecord "Eve" 25 "Los Angeles" 30007]
           eq_refl).
Defined.

(** X13. [main], end to end: whatever [generate_data] returns is accepted by
    [write_to_csv] (no row raises), and the file gets the header followed by
    one row per record returned, in the order returned. With random calls
    that do not raise that is [1 + num_threads * (num_records //
    num_threads)] rows; for the configuration [main] fixes, 101 rows. *)
Theorem generate_then_write {G : Type} `{RandomSource G} `{!RandomTotal G}
    (d : DataGenerator) (g : G) :
  (∃ data, returns (generate_data d g) data)
  ∧ ∀ data, returns (generate_data d g) data →
      CSVWriter.write_to_csv (record_dict <$> data)
      = (["name"; "age"; "city"; "salary"] :: (CSVWriter.cells <$> data),
         true)
      ∧ length (CSVWriter.write_to_csv (record_dict <$> data)).1
        = S (range_len (num_threads d) * loop_len d).
Proof.
  split; [apply can_return|].
  intros data (sched & s & Hr & Hd). unfold CSVWriter.write_to_csv.
  rewrite write_rows_records. split; [done|]. simpl.
  by rewrite length_fmap, (returned_length _ _ _ _ _ Hr Hd).
Qed.

Lemma generate_then_write_witness :
  (∃ data, returns (generate_data Main.data_generator (Counter 0)) data)
  ∧ ∀ data,
      returns (generate_data Main.data_generator (Counter 0)) data →
      Main.main data
      = ("sample_data.csv",
         (["name"; "age"; "city"; "salary"] :: (CSVWriter.cells <$> data),
          true))
      ∧ length (Main.main data).2.1 = 101.
Proof.
  destruct (generate_then_write Main.data_generator (Counter 0))
    as [Hex Hall].
  split; [exact Hex|]. intros data Hret.
  destruct (Hall data Hret) as [Hw Hl].
  split; [exact (f_equal (pair Main.filename) Hw)|exact Hl].
Defined.

(** ** A short list is the only trace of a dead worker *)

Section Crashes.
Context {G : Type} `{RandomSource G}.
Implicit Types (s : state G) (d : DataGenerator) (g : G).

(** A worker's action either kills it, with at least one record of its
    share not yet put, or keeps its share. *)
Lemma worker_step_crash_or_keep i s s' :
  main_inv s → _generate_worker i s = Some s' →
  ∃ w w', threads s !! i = Some w
    ∧ threads s' = <[i := w']> (threads s)
    ∧ pc s' = pc s
    ∧ data_queue s' = data_queue s ++ (put_event (Worker i) s).*2
    ∧ w ≠ WCrashed
    ∧ ((w' = WCrashed ∧ put_event (Worker i) s = []
        ∧ 1 ≤ rem (loop_len (self s)) w)
       ∨ (w' ≠ WCrashed
          ∧ rem (loop_len (self s)) w
            = rem (loop_len (self s)) w' + length (put_event (Worker i) s))).
Proof.
  intros Hi Hs. change (sched_step (Worker i) s = Some s') in Hs.
  step_cases Hs;
    match goal with Hl : threads s !! i = Some _ |- _ =>
      pose proof (floordiv_spawned _ _ _ Hi Hl) as Hfd;
      unfold put_event; rewrite ?Hl end;
    try congruence;
    (eexists _, _; split_and!; [done|done|done|..]);
    simpl; rewrite ?app_nil_r; try done;
    try (left; split_and!; [done|done|lia]);
    right; (split; [done|]); try lia;
    unfold loop_len;
    match goal with Hf : floordiv _ _ = Some ?z |- _ =>
      is_var z; rewrite Hfd in Hf
    end;
    simplify_eq; rewrite Hfd; lia.
Qed.

Lemma crashed_zero ws :
  sum_list_with crashed ws = 0 ↔ Forall (λ w, w ≠ WCrashed) ws.
Proof.
  induction ws as [|w ws IH]; simpl; [by split|].
  rewrite Forall_cons, <-IH. destruct w; simpl; split; try lia;
    try (by intros [? ?]); intros ?; split; (done || lia).
Qed.

Lemma step_pending_crashed t s s' :
  main_inv s → sched_step t s = Some s' →
  pending s' + sum_list_with crashed (threads s')
  ≤ pending s + sum_list_with crashed (threads s)
  ∧ (sum_list_with crashed (threads s) ≤ sum_list_with crashed (threads s'))
  ∧ (sum_list_with crashed (threads s') = 0 → pending s' = pending s).
Proof.
  intros Hi Hs. unfold pending. rewrite (step_self _ _ _ Hs).
  destruct t as [|i].
  - step_cases Hs;
      repeat match goal with Hp : pc s = _ |- _ => rewrite Hp; clear Hp end;
      repeat match goal with Hp : data_queue s = _ |- _ =>
               rewrite Hp; clear Hp end;
      simpl; rewrite ?length_app, ?sum_list_snoc; simpl; lia.
  - destruct (worker_step_crash_or_keep _ _ _ Hi Hs)
      as (w & w' & Hw & -> & -> & -> & Hnc & Hcase).
    pose proof (sum_list_insert (rem (loop_len (self s))) _ _ _ w' Hw).
    pose proof (sum_list_insert crashed _ _ _ w' Hw) as Hc.
    rewrite length_app, length_fmap.
    assert (crashed w = 0) by (by destruct w).
    destruct Hcase as [(-> & -> & Hrem)|(Hnc' & Hrem)]; simpl in *.
    + lia.
    + assert (crashed w' = 0) by (by destruct w'). lia.
Qed.

Lemma run_pending_crashed sched s s' :
  main_inv s → run sched s = Some s' →
  pending s' + sum_list_with crashed (threads s')
  ≤ pending s + sum_list_with crashed (threads s)
  ∧ (sum_list_with crashed (threads s') = 0 → pending s' = pending s).
Proof.
  revert s. induction sched as [|t sched IH]; intros s Hi Hr; simplify_eq/=.
  - done.
  - destruct (sched_step t s) as [s1|] eqn:Hs; [|done].
    destruct (step_pending_crashed _ _ _ Hi Hs) as (Hle & Hmono & Hkeep).
    destruct (IH s1 (step_main_inv _ _ _ Hs Hi) Hr) as [Hle' Hkeep'].
    split; [lia|]. intros H0. rewrite (Hkeep' H0).
    apply Hkeep.
    assert (sum_list_with crashed (threads s1)
            ≤ sum_list_with crashed (threads s')) as Hm; [|lia].
    clear -Hr. revert s1 Hr.
    induction sched as [|t' sched IH2]; intros s1 Hr; simplify_eq/=; [done|].
    destruct (sched_step t' s1) as [s2|] eqn:Hs2; [|done].
    etrans; [|by apply (IH2 s2)].
    destruct t' as [|j].
    + step_cases Hs2; rewrite ?sum_list_snoc; simpl; lia.
    + unfold sched_step, _generate_worker in Hs2.
      destruct (threads s1 !! j) as [w|] eqn:Hw; [|done].
      assert (crashed w = 0) by (destruct w; simplify_eq/=; done).
      assert (∃ w', threads s2 = <[j := w']> (threads s1)) as [w' ->].
      { unfold set_worker, set_worker_rng in Hs2.
        destruct w as [|[|k]| | | | | |]; repeat case_match;
          simplify_eq/=; eauto. }
      pose proof (sum_list_insert crashed _ _ _ w' Hw). lia.
Qed.

End Crashes.

(** X14. A short list is the only trace of a dead worker. Let the full
    share be [max(num_threads, 0) * max(num_records // num_threads, 0)].
    When [generate_data] returns, the number of records plus the number of
    workers that ended by an exception is at most the full share, and the
    list has exactly the full share of records exactly when no worker ended
    by an exception. *)
Theorem full_length_iff_no_worker_died {G : Type} `{RandomSource G}
    (d : DataGenerator) (g : G) sched (s : state G) data :
  run sched (generate_data d g) = Some s → pc s = MReturn data →
  (Z.of_nat (length data + sum_list_with crashed (threads s))
   ≤ Z.max 0 (num_threads d)
     * Z.max 0 (num_records d `div` num_threads d))%Z
  ∧ (Z.of_nat (length data)
     = (Z.max 0 (num_threads d)
        * Z.max 0 (num_records d `div` num_threads d))%Z
     ↔ Forall (λ w, w ≠ WCrashed) (threads s)).
Proof.
  intros Hr Hd. rewrite <-full_share_Z.
  pose proof (run_main_inv _ _ _ Hr (main_inv_init d g)) as [_ Hj Hq].
  destruct (run_pending_crashed _ _ _ (main_inv_init d g) Hr) as [Hle Hkeep].
  unfold pending in Hle, Hkeep. rewrite (run_self _ _ _ Hr) in Hle, Hkeep.
  rewrite Hd in Hle, Hkeep, Hj. simpl in Hle, Hkeep, Hj.
  rewrite (Hq _ Hd), (rem_finished _ _ Hj) in Hle, Hkeep.
  simpl in Hle, Hkeep. split; [lia|].
  rewrite <-crashed_zero. split; intros Hx.
  - lia.
  - specialize (Hkeep Hx). lia.
Qed.

(** One worker, five records asked, the worker dies after two: 2 + 1 <= 5,
    and the list is short. *)
Lemma full_length_iff_no_worker_died_witness :
  ∃ s data,
    run failing_1x5 (generate_data (mkDataGenerator 1 5) (Flaky 8 (Counter 0)))
    = Some s
    ∧ pc s = MReturn data
    ∧ (Z.of_nat (length data + sum_list_with crashed (threads s))
       ≤ Z.max 0 1 * Z.max 0 (5 `div` 1))%Z
    ∧ (Z.of_nat (length data) = (Z.max 0 1 * Z.max 0 (5 `div` 1))%Z
       ↔ Forall (λ w, w ≠ WCrashed) (threads s)).
Proof.
  destruct (run_result _ _ _ _ failing_1x5_run) as (s & Hr & [= Hp Ht]).
  eexists s, _. split; [exact Hr|]. split; [exact Hp|].
  exact (full_length_iff_no_worker_died (mkDataGenerator 1 5)
           (Flaky 8 (Counter 0)) failing_1x5 s _ Hr Hp).
Defined.
